(** * TreeHelper: node assembly, property routing and sub/sup repair

    A shallow embedding of [src/mathjax3-ts/input/tex/TreeHelper.ts]
    (namespace [TreeHelper]) and the properties its specification states.

    The helper functions are written against the MmlTree node classes
    and the node factory, which live in other modules.  What those
    modules contribute is kept separate and is marked as such below. *)

From stdpp Require Import gmap strings list fin_maps.

Local Open Scope string_scope.
Local Open Scope list_scope.
Local Open Scope nat_scope.

(** ** Data model *)

(** [Property = string | number | boolean]: the values of attributes and
    properties.  The helper only stores and moves them. *)
Inductive Property :=
| PString (s : string)
| PNumber (z : Z)
| PBoolean (b : bool).

(** [node.arity]: a child count, with [Infinity] and [-1] both standing
    for "any number of children". *)
Inductive Arity :=
| Finite (n : Z)
| Infinity.

(** A node of the tree.  [childNodes] is a JavaScript array: a slot can
    hold no value ([None]), and reading past its end gives no value
    either.  A text leaf holds a string and has no children, attributes
    or properties.  Nodes are kept as values: where the source lets two
    nodes hold one attribute object ([copyAttributes]), the older of
    the two is dropped from the tree and not looked at again. *)
#[warnings="-register-all"]
Inductive MmlNode :=
| Mml (kind : string) (childNodes : list (option MmlNode))
      (attributes properties : gmap string Property)
      (texClass : option Property)
| TextNode (text : string).

Definition kind (n : MmlNode) : string :=
  match n with Mml k _ _ _ _ => k | TextNode _ => "text" end.

Definition childNodes (n : MmlNode) : list (option MmlNode) :=
  match n with Mml _ cs _ _ _ => cs | TextNode _ => [] end.

Definition attributes (n : MmlNode) : gmap string Property :=
  match n with Mml _ _ a _ _ => a | TextNode _ => ∅ end.

(** [node.getAllProperties()] *)
Definition getAllProperties (n : MmlNode) : gmap string Property :=
  match n with Mml _ _ _ p _ => p | TextNode _ => ∅ end.

Definition texClass (n : MmlNode) : option Property :=
  match n with Mml _ _ _ _ t => t | TextNode _ => None end.

(** [children[i]]: an index outside the array and an empty slot both
    read as no value. *)
Definition slot (children : list (option MmlNode)) (i : nat) : option MmlNode :=
  mjoin (children !! i).

(** Induction over a node with its children available. *)
Fixpoint MmlNode_rect' (P : MmlNode → Type)
    (Htext : ∀ s, P (TextNode s))
    (Hmml : ∀ k cs a p t,
        (∀ i c, slot cs i = Some c → P c) → P (Mml k cs a p t))
    (n : MmlNode) {struct n} : P n.
Proof.
  destruct n as [k cs a p t|s]; [|apply Htext].
  apply Hmml.
  induction cs as [|c cs IH]; intros i x Hx.
  - destruct i; discriminate.
  - destruct i as [|i].
    + destruct c as [c|]; [|discriminate].
      injection Hx as <-. apply (MmlNode_rect' P Htext Hmml c).
    + exact (IH i x Hx).
Defined.

(** ** The node classes and the Tree API *)

(** Modelled from the spec: the node classes behind the factory
    ([MmlFactory] and the classes under [core/MmlTree]) are taken as a
    parameter.  A class fixes the [arity] of its nodes, whether they are
    inferred grouping nodes, and, for the two-slot scripted classes, the
    indices of their slots ([base], [sub], [sup] of [MmlMsubsup];
    [base], [under], [over] of [MmlMunderover]). *)
Record NodeClasses := {
  arity : string → Arity;
  inferred : string → bool;
  msubsup_base : nat;
  msubsup_sub : nat;
  msubsup_sup : nat;
  munderover_base : nat;
  munderover_under : nat;
  munderover_over : nat;
}.

(** Modelled from the spec: [node.isKind(kind)] compares the kind tag. *)
Definition isKind (n : MmlNode) (k : string) : bool := bool_decide (kind n = k).

(** Modelled from the spec: [factory.create(kind, attributes, children)]
    gives a node of that kind with the given attributes and children, no
    properties and no texClass. *)
Definition create (k : string) (attrs : gmap string Property)
    (children : list (option MmlNode)) : MmlNode :=
  Mml k children attrs ∅ None.

(** Modelled from the spec: [node.setChildren(children)] makes the
    sequence the node's children; a text leaf takes none. *)
Definition setChildren (n : MmlNode) (children : list (option MmlNode)) : MmlNode :=
  match n with
  | Mml k _ a p t => Mml k children a p t
  | TextNode s => TextNode s
  end.

(** Modelled from the spec: [node.appendChild(child)] adds a final child. *)
Definition appendChild (n : MmlNode) (child : MmlNode) : MmlNode :=
  match n with
  | Mml k cs a p t => Mml k (cs ++ [Some child]) a p t
  | TextNode s => TextNode s
  end.

(** Modelled from the spec: [node.setProperty(name, value)]. *)
Definition setProperty (n : MmlNode) (name : string) (value : Property) : MmlNode :=
  match n with
  | Mml k cs a p t => Mml k cs a (<[name:=value]> p) t
  | TextNode s => TextNode s
  end.

(** Modelled from the spec: [node.attributes.set(name, value)]. *)
Definition setAttribute (n : MmlNode) (name : string) (value : Property) : MmlNode :=
  match n with
  | Mml k cs a p t => Mml k cs (<[name:=value]> a) p t
  | TextNode s => TextNode s
  end.

(** [node.texClass = value] *)
Definition setTexClass (n : MmlNode) (value : Property) : MmlNode :=
  match n with
  | Mml k cs a p _ => Mml k cs a p (Some value)
  | TextNode s => TextNode s
  end.

(** [newNode.attributes = oldNode.attributes] *)
Definition assignAttributes (n : MmlNode) (a : gmap string Property) : MmlNode :=
  match n with
  | Mml k cs _ p t => Mml k cs a p t
  | TextNode s => TextNode s
  end.

(** [TreeHelper.getChildren] *)
Definition getChildren (n : MmlNode) : list (option MmlNode) := childNodes n.

(** [TreeHelper.isType] *)
Definition isType (n : MmlNode) (k : string) : bool := isKind n k.

(** [children[position] = child] on a JavaScript array: an index past
    the end extends the array, leaving holes in between. *)
Definition assignSlot (children : list (option MmlNode)) (position : nat)
    (child : option MmlNode) : list (option MmlNode) :=
  if decide (position < length children)
  then <[position:=child]> children
  else children ++ replicate (position - length children) None ++ [child].

(** [setData(node, position, child)] *)
Definition setData (node : MmlNode) (position : nat) (child : option MmlNode) : MmlNode :=
  setChildren node (assignSlot (childNodes node) position child).

(** ** The property classifier *)

(** The names stored as typed properties. *)
Definition attrs : list string :=
  ["autoOP"; "fnOP"; "movesupsub"; "subsupOK"; "texprimestyle";
   "useHeight"; "variantForm"; "withDelims"; "open"; "close"].

(** The body of the loop of [setProperties], for one key of the bag. *)
Definition setProperties_step (name : string) (value : Property)
    (node : MmlNode) : MmlNode :=
  if decide (name = "texClass") then setTexClass node value
  else if decide (name = "movablelimits") then
    let node := setProperty node "movablelimits" value in
    if isKind node "mo" || isKind node "mstyle"
    then setAttribute node "movablelimits" value
    else node
  else if decide (name = "inferred") then node
  else if decide (name ∈ attrs) then setProperty node name value
  else setAttribute node name value.

(** [setProperties(node, properties)]: the loop runs over the keys of
    the bag, each key once. *)
Definition setProperties (node : MmlNode)
    (properties : gmap string Property) : MmlNode :=
  map_fold setProperties_step node properties.

(** [copyAttributes(oldNode, newNode)] *)
Definition copyAttributes (oldNode newNode : MmlNode) : MmlNode :=
  let newNode := assignAttributes newNode (attributes oldNode) in
  setProperties newNode (getAllProperties oldNode).

Section Assembler.
Context (classes : NodeClasses).

(** [node.isInferred] *)
Definition isInferred (n : MmlNode) : bool :=
  match n with
  | Mml k _ _ _ _ => inferred classes k
  | TextNode _ => false
  end.

(** [arity === Infinity || arity === -1] *)
Definition variadic (a : Arity) : bool :=
  match a with
  | Infinity => true
  | Finite n => bool_decide (n = (-1)%Z)
  end.

(** The loop of the fixed-arity branch of [createNode]:
    [for (let i = 0, child; child = children[i]; i++)] stops at the
    first entry that holds no value. *)
Fixpoint cleanChildren (children : list (option MmlNode)) : list (option MmlNode) :=
  match children with
  | Some child :: rest =>
      (if isInferred child
       then
         let mrow := create "mrow" ∅ (getChildren child) in
         Some (copyAttributes child mrow)
       else Some child) :: cleanChildren rest
  | _ => []
  end.

(** [createNode(kind, children, def, text)].  The result is [None]
    where the source throws: [children[0].isInferred] on a sequence
    whose only entry holds no value. *)
Definition createNode (k : string) (children : list (option MmlNode))
    (def : gmap string Property) (text : option MmlNode) : option MmlNode :=
  let node := create k ∅ [] in
  node ←
    (if variadic (arity classes k) then
       if bool_decide (length children = 1) then
         c0 ← slot children 0;
         if isInferred c0
         then Some (setChildren node (getChildren c0))
         else Some (setChildren node children)
       else Some (setChildren node children)
     else Some (setChildren node (cleanChildren children)));
  let node := match text with
              | Some t => appendChild node t
              | None => node
              end in
  Some (setProperties node def).

End Assembler.

(** ** The sub/sup repair pass *)

(** The pass works on a tree in place: it keeps references to nodes,
    follows [n.parent] and assigns child slots.  The tree is kept here
    as a value; a reference to a node is the path of child indices that
    leads to it from the root handed to the pass, and the parent of a
    node is the node one step up that path.  This is the tree of the
    data model: every node but the root has one parent, the parent's
    slot and the child's back-reference agree, and the root handed to
    the pass has no parent. *)
Definition Path := list nat.

(** The walk over the children of a node in [walkTree]: in order,
    skipping the slots that hold no value; the child in slot [i] is
    referred to by the path of its parent followed by [i]. *)
Definition walkChildren {D} (walk : Path → MmlNode → D → D) (path : Path) :
    nat → list (option MmlNode) → D → D :=
  fix go i cs data :=
    match cs with
    | [] => data
    | c :: cs =>
        go (S i) cs
           (match c with
            | Some child => walk (path ++ [i]) child data
            | None => data
            end)
    end.

(** Modelled from the spec: [node.walkTree(func, data)] calls [func] on
    the node with [data] and then walks the children, parents before
    children. *)
Fixpoint walkTree {D} (func : Path → MmlNode → D → D)
    (path : Path) (n : MmlNode) (data : D) : D :=
  let data := func path n data in
  match n with
  | Mml _ cs _ _ _ => walkChildren (walkTree func) path 0 cs data
  | TextNode _ => data
  end.

(** The node a reference denotes in the current tree. *)
Fixpoint node_at (root : MmlNode) (path : Path) : option MmlNode :=
  match path with
  | [] => Some root
  | i :: path => child ← slot (childNodes root) i; node_at child path
  end.

(** An assignment through a reference: the node at [path] becomes
    [f] of it, everything else stays. *)
Fixpoint update_at (root : MmlNode) (path : Path) (f : MmlNode → MmlNode) : MmlNode :=
  match path with
  | [] => f root
  | i :: path =>
      match slot (childNodes root) i with
      | Some child => setChildren root (<[i:=Some (update_at child path f)]> (childNodes root))
      | None => root
      end
  end.

(** [n.parent], with the index of [n] among its parent's children;
    [None] for the root. *)
Definition parent_of (path : Path) : option (Path * nat) :=
  match reverse path with
  | [] => None
  | i :: up => Some (reverse up, i)
  end.

(** Modelled from the spec: [parent.replaceChild(newNode, n)] puts the
    new node in the slot [i] that holds [n]. *)
Definition replaceChild (parent : MmlNode) (i : nat) (newChild : MmlNode) : MmlNode :=
  setChildren parent (<[i:=Some newChild]> (childNodes parent)).

Section Repair.
Context (classes : NodeClasses).

Definition missing (o : option MmlNode) : bool :=
  match o with Some _ => false | None => true end.

(** The test of the callback given to [walkTree]. *)
Definition needsRewrite (n : MmlNode) : bool :=
  let children := childNodes n in
  (isKind n "msubsup" &&
     (missing (slot children (msubsup_sub classes)) ||
      missing (slot children (msubsup_sup classes))))
  ||
  (isKind n "munderover" &&
     (missing (slot children (munderover_under classes)) ||
      missing (slot children (munderover_over classes)))).

(** The callback: [d.unshift(n)] on the nodes that pass the test. *)
Definition collect (path : Path) (n : MmlNode) (d : list Path) : list Path :=
  if needsRewrite n then path :: d else d.

(** The new node built for [n] in the body of the second loop, up to
    [copyAttributes(n, newNode)]. *)
Definition rewriteNode (n : MmlNode) : option MmlNode :=
  let children := childNodes n in
  newNode ←
    (if isKind n "msubsup" then
       match slot children (msubsup_sub classes) with
       | Some _ =>
           createNode classes "msub"
             [slot children (msubsup_base classes);
              slot children (msubsup_sub classes)] ∅ None
       | None =>
           createNode classes "msup"
             [slot children (msubsup_base classes);
              slot children (msubsup_sup classes)] ∅ None
       end
     else
       match slot children (munderover_under classes) with
       | Some _ =>
           createNode classes "munder"
             [slot children (munderover_base classes);
              slot children (munderover_under classes)] ∅ None
       | None =>
           createNode classes "mover"
             [slot children (munderover_base classes);
              slot children (munderover_over classes)] ∅ None
       end);
  Some (copyAttributes n newNode).

(** One round of [for (const n of rewrite)]: [node] is the root held
    by the variable [node] of the source.  The result is [None] only
    for a reference that leads nowhere, which the walk never
    collects. *)
Definition cleanSubSup_step (node : MmlNode) (n : Path) : option MmlNode :=
  old ← node_at node n;
  newNode ← rewriteNode old;
  match parent_of n with
  | Some (parent, i) =>
      Some (update_at node parent (λ p, replaceChild p i newNode))
  | None => Some newNode
  end.

Fixpoint cleanSubSup_loop (rewrite : list Path) (node : MmlNode) : option MmlNode :=
  match rewrite with
  | [] => Some node
  | n :: rewrite => node ← cleanSubSup_step node n; cleanSubSup_loop rewrite node
  end.

(** [cleanSubSup(node)] *)
Definition cleanSubSup (node : MmlNode) : option MmlNode :=
  let rewrite := walkTree collect [] node [] in
  cleanSubSup_loop rewrite node.

End Repair.

(** ** The operator form resolver *)

(** The names of the members that every JavaScript object inherits from
    [Object.prototype]: a property access [table[name]] on an object
    that has no entry of its own for such a name gives the inherited
    member. *)
Definition inheritedMembers : list string :=
  ["constructor"; "hasOwnProperty"; "isPrototypeOf"; "propertyIsEnumerable";
   "toLocaleString"; "toString"; "valueOf"; "__proto__";
   "__defineGetter__"; "__defineSetter__"; "__lookupGetter__"; "__lookupSetter__"].

(** What a property access on a table of the operator dictionary can
    give: an entry of the table, or a member the table inherits. *)
Inductive Symbol (OperatorDef : Type) :=
| Entry (def : OperatorDef)
| Inherited (member : string).
Arguments Entry {OperatorDef} def.
Arguments Inherited {OperatorDef} member.

(** [table[name]]: the entry of the table itself if it has one, else
    the inherited member of that name if there is one, else no value
    ([undefined]). *)
Definition propertyAccess {OperatorDef : Type}
    (table : gmap string OperatorDef) (name : string) : option (Symbol OperatorDef) :=
  match table !! name with
  | Some def => Some (Entry def)
  | None =>
      if decide (name ∈ inheritedMembers) then Some (Inherited name) else None
  end.

Section Resolver.
(** Modelled from the spec: the operator dictionary and the two
    methods of the operator class are taken as parameters:
    [MmlMo.OPTABLE], which gives for each form that [getForms] yields
    the entries of that form's table, [mo.getForms()] and
    [mo.getText()]. *)
Context {OperatorDef : Type}.
Context (OPTABLE : string → gmap string OperatorDef).
Context (getForms : MmlNode → list string).
Context (getText : MmlNode → string).

(** The loop over the forms: [symbol = MmlMo.OPTABLE[form][mo.getText()]]
    and [if (symbol) return symbol].  Every value the access can give
    is an object (an operator definition is an array, an inherited
    member a function or an object), so the test passes exactly when
    the access gives a value. *)
Fixpoint getForm_loop (mo : MmlNode) (forms : list string) :
    option (Symbol OperatorDef) :=
  match forms with
  | [] => None
  | form :: forms =>
      match propertyAccess (OPTABLE form) (getText mo) with
      | Some symbol => Some symbol
      | None => getForm_loop mo forms
      end
  end.

(** [getForm(node)]; [None] is the [null] of the source. *)
Definition getForm (node : MmlNode) : option (Symbol OperatorDef) :=
  if negb (isType node "mo") then None
  else getForm_loop node (getForms node).

End Resolver.

(** ** A concrete set of node classes *)

(** The MathML classes used where a statement is tried on an example:
    the scripted kinds take a base and one or two scripts, in the order
    base, lower script, upper script; rows and token nodes take any
    number of children; an inferred row is a node of kind
    [inferredMrow]. *)
Definition mathml : NodeClasses := {|
  arity k :=
    if decide (k ∈ ["msubsup"; "munderover"]) then Finite 3
    else if decide (k ∈ ["msub"; "msup"; "munder"; "mover"; "mfrac"; "mroot"]) then Finite 2
    else if decide (k ∈ ["msqrt"; "mstyle"; "merror"; "mpadded"; "mphantom"; "menclose"]) then Finite (-1)
    else Infinity;
  inferred k := bool_decide (k = "inferredMrow");
  msubsup_base := 0; msubsup_sub := 1; msubsup_sup := 2;
  munderover_base := 0; munderover_under := 1; munderover_over := 2;
|}.

(** ** Example trees *)

Definition token (k text : string) : MmlNode :=
  Mml k [Some (TextNode text)] ∅ ∅ None.

Definition x_mi : MmlNode := token "mi" "x".
Definition two_mn : MmlNode := token "mn" "2".
Definition three_mn : MmlNode := token "mn" "3".

(** [msubsup] with base and subscript, no superscript. *)
Definition sub_only : MmlNode :=
  Mml "msubsup" [Some x_mi; Some two_mn] ∅ ∅ None.

(** [msubsup] with a subscript and an empty base slot. *)
Definition sub_without_base : MmlNode :=
  Mml "msubsup" [None; Some two_mn] ∅ ∅ None.

(** [msubsup] with base and superscript and a hole for the subscript,
    carrying an attribute, a typed property and a texClass. *)
Definition sup_only_classed : MmlNode :=
  Mml "msubsup" [Some x_mi; None; Some two_mn]
      {["mathcolor" := PString "red"]} {["movesupsub" := PBoolean true]}
      (Some (PNumber 0)).

(** [msubsup] and [munderover] with a base and nothing else. *)
Definition base_only : MmlNode := Mml "msubsup" [Some x_mi] ∅ ∅ None.
Definition base_only_limits : MmlNode := Mml "munderover" [Some x_mi] ∅ ∅ None.

(** An inferred row holding two tokens, with an attribute. *)
Definition inferred_row : MmlNode :=
  Mml "inferredMrow" [Some x_mi; Some two_mn] {["mathcolor" := PString "red"]}
      {["texprimestyle" := PBoolean true]} None.

(** An operator dictionary with two entries for [+], the forms of an
    operator in the order postfix, infix, prefix, and the text of a
    token as the text of its leaves. *)
Definition plus_mo : MmlNode := token "mo" "+".

(** An operator whose text is the name of an inherited member. *)
Definition constructor_mo : MmlNode := token "mo" "constructor".

Definition example_OPTABLE (form : string) : gmap string nat :=
  if decide (form = "infix") then {["+" := 1]}
  else if decide (form = "prefix") then {["+" := 2; "-" := 3]}
  else ∅.

Definition example_getForms (_ : MmlNode) : list string :=
  ["postfix"; "infix"; "prefix"].

Definition example_getText (n : MmlNode) : string :=
  foldr (λ c text,
           match c with
           | Some (TextNode s) => s +:+ text
           | _ => text
           end) "" (childNodes n).

(** ** Where the classifier sends a key *)

(** The keys that [setProperties] stores as typed properties. *)
Definition routedToProperty (name : string) : bool :=
  bool_decide (name = "movablelimits") || bool_decide (name ∈ attrs).

(** The keys that [setProperties] stores as attributes of a node of
    kind [k]. *)
Definition routedToAttribute (k name : string) : bool :=
  if decide (name = "movablelimits")
  then bool_decide (k = "mo") || bool_decide (k = "mstyle")
  else bool_decide (name ≠ "texClass") && bool_decide (name ≠ "inferred")
       && negb (bool_decide (name ∈ attrs)).

(** The keys that [setProperties] stores as attributes of any node. *)
Definition genericKey (name : string) : bool :=
  negb (bool_decide (name ∈ "texClass" :: "movablelimits" :: "inferred" :: attrs)).

(** The entry of a map after the classifier ran: the value of the bag
    when the key is routed to that map, the old entry otherwise. *)
Definition routed (b : bool) (new old : option Property) : option Property :=
  match new with
  | Some v => if b then Some v else old
  | None => old
  end.

(** ** The result of the repair pass, by recursion on the tree *)

Section Repaired.
Context (classes : NodeClasses).

(** The trailing text leaf as the children [createNode] appends. *)
Definition trailing (text : option MmlNode) : list (option MmlNode) :=
  match text with Some t => [Some t] | None => [] end.

(** The child [createNode] attaches for a supplied child under a
    fixed arity: an inferred child gives way to a new [mrow]. *)
Definition mrowOf (child : MmlNode) : MmlNode :=
  if isInferred classes child
  then copyAttributes child (create "mrow" ∅ (getChildren child))
  else child.

(** The supplied children before the first entry that holds no value. *)
Fixpoint leading (children : list (option MmlNode)) : list MmlNode :=
  match children with
  | Some child :: rest => child :: leading rest
  | _ => []
  end.

(** What [createNode] attaches for two or more entries. *)
Definition attached (k : string) (children : list (option MmlNode)) :
    list (option MmlNode) :=
  if variadic (arity classes k) then children
  else cleanChildren classes children.

(** The children of a node after the pass ran on each of them. *)
Definition cleanedChildren (children : list (option MmlNode)) :
    list (option MmlNode) :=
  (λ c, c ≫= cleanSubSup classes) <$> children.

(** The replacement of [n]; [n] itself where the source throws. *)
Definition rewritten (n : MmlNode) : MmlNode :=
  default n (rewriteNode classes n).

(** The tree with every node repaired, children before parents. *)
Fixpoint repaired (n : MmlNode) : MmlNode :=
  match n with
  | Mml k cs a p t =>
      let n' := Mml k (fmap (M:=list) (fmap (M:=option) repaired) cs) a p t in
      if needsRewrite classes n' then rewritten n' else n'
  | TextNode s => TextNode s
  end.

(** The loop, run on the paths [l] collected below the node [t] at
    [q], puts the repaired [t] where [t] was. *)
Definition Repairs (q : Path) (t : MmlNode) (l : list Path) : Prop :=
  ∀ root, node_at root q = Some t →
    cleanSubSup_loop classes l root =
      Some (update_at root q (λ _, repaired t)).

(** A tree in which the test of the pass finds nothing. *)
Inductive Settled : MmlNode → Prop :=
| Settled_text s : Settled (TextNode s)
| Settled_mml k cs a p t :
    needsRewrite classes (Mml k cs a p t) = false →
    (∀ i c, slot cs i = Some c → Settled c) →
    Settled (Mml k cs a p t).

End Repaired.

(** ** The remaining helpers *)

(** [TreeHelper.getChildAt] *)
Definition getChildAt (node : MmlNode) (position : nat) : option MmlNode :=
  slot (childNodes node) position.

(** Modelled from the spec: [node.getProperty(property)], behind
    [TreeHelper.getProperty]. *)
Definition getProperty (node : MmlNode) (property : string) : option Property :=
  getAllProperties node !! property.

(** Modelled from the spec: [node.attributes.get(attr)], behind
    [TreeHelper.getAttribute]. *)
Definition getAttribute (node : MmlNode) (attr : string) : option Property :=
  attributes node !! attr.

(** [TreeHelper.getTexClass] *)
Definition getTexClass (node : MmlNode) : option Property := texClass node.

(** Modelled from the spec: [node.removeProperty(...names)] deletes the
    named properties. *)
Definition removeProperty (n : MmlNode) (names : list string) : MmlNode :=
  match n with
  | Mml k cs a p t => Mml k cs a (foldl (λ p name, delete name p) p names) t
  | TextNode s => TextNode s
  end.

(** [removeProperties(node, ...properties)] *)
Definition removeProperties (node : MmlNode) (properties : list string) : MmlNode :=
  removeProperty node properties.

(** [appendChildren(node, children)] *)
Definition appendChildren (node : MmlNode) (children : list MmlNode) : MmlNode :=
  foldl appendChild node children.

(** [copyChildren(oldNode, newNode)]: [setData(newNode, i, children[i])]
    for [i] from 0 up to the length of the old node's children. *)
Definition copyChildren (oldNode newNode : MmlNode) : MmlNode :=
  let children := childNodes oldNode in
  foldl (λ newNode i, setData newNode i (slot children i)) newNode
        (seq 0 (length children)).

(** [createText(text)]; [None] stands for [null], as argument and as
    result.  The text leaf made by the factory takes the string with
    [setText]; [printJSON] prints nothing, its switch being off. *)
Definition createText (text : option string) : option MmlNode :=
  match text with
  | None => None
  | Some s => Some (TextNode s)
  end.

(** [TreeHelper.getText], on a text leaf. *)
Definition getText (node : MmlNode) : string :=
  match node with
  | TextNode s => s
  | Mml _ _ _ _ _ => ""
  end.

(** The number of nodes of a tree. *)
Fixpoint size (n : MmlNode) : nat :=
  match n with
  | Mml _ cs _ _ _ => S (sum_list_with (λ c, from_option size 0 c) cs)
  | TextNode _ => 1
  end.

Section Helpers.
Context (classes : NodeClasses).

(** [createError(message)] *)
Definition createError (message : option string) : option MmlNode :=
  let text := createText message in
  mtext ← createNode classes "mtext" [] ∅ text;
  createNode classes "merror" [Some mtext] ∅ None.

(** No node of the tree passes the test of the repair pass. *)
Fixpoint wellScripted (n : MmlNode) : bool :=
  negb (needsRewrite classes n) &&
  match n with
  | Mml _ cs _ _ _ =>
      forallb (λ c, match c with Some child => wellScripted child | None => true end) cs
  | TextNode _ => true
  end.

End Helpers.

(** * Properties *)

(** ** The property classifier *)

Lemma setProperties_step_Mml name value k cs a p t :
  setProperties_step name value (Mml k cs a p t) =
  Mml k cs
    (if routedToAttribute k name then <[name:=value]> a else a)
    (if routedToProperty name then <[name:=value]> p else p)
    (if decide (name = "texClass") then Some value else t).
Proof.
  unfold setProperties_step, routedToAttribute, routedToProperty.
  destruct (decide (name = "texClass")) as [->|Htc]; [reflexivity|].
  destruct (decide (name = "movablelimits")) as [->|Hml].
  { cbn. unfold isKind; cbn.
    destruct (bool_decide (k = "mo") || bool_decide (k = "mstyle")); reflexivity. }
  destruct (decide (name = "inferred")) as [->|Hinf]; [reflexivity|].
  rewrite (bool_decide_eq_false_2 (name = "movablelimits")) by done.
  rewrite !bool_decide_eq_true_2 by done. cbn.
  destruct (decide (name ∈ attrs)) as [Hin|Hin].
  - rewrite bool_decide_eq_true_2 by done. reflexivity.
  - rewrite bool_decide_eq_false_2 by done. reflexivity.
Qed.

(** What [setProperties] leaves on a node: kind and children stay, and
    every key of the bag lands where the classifier routes it. *)
Lemma setProperties_Mml k cs a p t (bag : gmap string Property) :
  ∃ a' p',
    setProperties (Mml k cs a p t) bag =
      Mml k cs a' p' (routed true (bag !! "texClass") t) ∧
    (∀ key, a' !! key = routed (routedToAttribute k key) (bag !! key) (a !! key)) ∧
    (∀ key, p' !! key = routed (routedToProperty key) (bag !! key) (p !! key)).
Proof.
  unfold setProperties.
  apply (map_fold_weak_ind (λ r (m : gmap string Property), ∃ a' p',
    r = Mml k cs a' p' (routed true (m !! "texClass") t) ∧
    (∀ key, a' !! key = routed (routedToAttribute k key) (m !! key) (a !! key)) ∧
    (∀ key, p' !! key = routed (routedToProperty key) (m !! key) (p !! key)))).
  - exists a, p. split; [reflexivity|]. split; intros key; by rewrite lookup_empty.
  - intros i x m r Hi (a' & p' & -> & Ha & Hp).
    rewrite setProperties_step_Mml. eexists _, _. split; [|split].
    + f_equal. rewrite lookup_insert.
      destruct (decide (i = "texClass")) as [->|]; done.
    + intros key. rewrite lookup_insert.
      destruct (decide (i = key)) as [->|Hne].
      * destruct (routedToAttribute k key) eqn:Hr; cbn.
        -- by rewrite lookup_insert_eq.
        -- rewrite Ha, Hi. done.
      * destruct (routedToAttribute k i); [rewrite lookup_insert_ne by done|]; apply Ha.
    + intros key. rewrite lookup_insert.
      destruct (decide (i = key)) as [->|Hne].
      * destruct (routedToProperty key) eqn:Hr; cbn.
        -- by rewrite lookup_insert_eq.
        -- rewrite Hp, Hi. done.
      * destruct (routedToProperty i); [rewrite lookup_insert_ne by done|]; apply Hp.
Qed.

Lemma routedToAttribute_generic k name :
  k ≠ "mo" → k ≠ "mstyle" → routedToAttribute k name = genericKey name.
Proof.
  intros Hmo Hms. unfold routedToAttribute, genericKey.
  destruct (decide (name = "movablelimits")) as [->|Hml].
  { rewrite (bool_decide_eq_false_2 (k = "mo")) by done.
    by rewrite (bool_decide_eq_false_2 (k = "mstyle")) by done. }
  destruct (decide (name = "texClass")) as [->|Htc]; [done|].
  destruct (decide (name = "inferred")) as [->|Hinf]; [done|].
  rewrite !bool_decide_eq_true_2 by done. cbn. f_equal.
  apply bool_decide_ext. rewrite !(elem_of_cons _ name). intuition congruence.
Qed.

Lemma copyAttributes_Mml old k cs a p t :
  ∃ a' p',
    copyAttributes old (Mml k cs a p t) =
      Mml k cs a' p' (routed true (getAllProperties old !! "texClass") t) ∧
    (∀ key, a' !! key =
       routed (routedToAttribute k key) (getAllProperties old !! key)
              (attributes old !! key)) ∧
    (∀ key, p' !! key =
       routed (routedToProperty key) (getAllProperties old !! key) (p !! key)).
Proof. unfold copyAttributes. cbn. apply setProperties_Mml. Qed.

Lemma setProperties_TextNode s bag : setProperties (TextNode s) bag = TextNode s.
Proof.
  unfold setProperties.
  apply (map_fold_weak_ind (λ r (_ : gmap string Property), r = TextNode s)); [done|].
  intros i x m r _ ->. unfold setProperties_step.
  repeat case_decide; cbn; done.
Qed.

Lemma setProperties_kind n bag : kind (setProperties n bag) = kind n.
Proof.
  destruct n as [k cs a p t|s]; [|by rewrite setProperties_TextNode].
  destruct (setProperties_Mml k cs a p t bag) as (a' & p' & -> & _). done.
Qed.

Lemma setProperties_childNodes n bag : childNodes (setProperties n bag) = childNodes n.
Proof.
  destruct n as [k cs a p t|s]; [|by rewrite setProperties_TextNode].
  destruct (setProperties_Mml k cs a p t bag) as (a' & p' & -> & _). done.
Qed.

Lemma setProperties_empty n : setProperties n ∅ = n.
Proof. apply map_fold_empty. Qed.

Lemma copyAttributes_kind old n : kind (copyAttributes old n) = kind n.
Proof. unfold copyAttributes. rewrite setProperties_kind. by destruct n. Qed.

Lemma copyAttributes_childNodes old n :
  childNodes (copyAttributes old n) = childNodes n.
Proof. unfold copyAttributes. rewrite setProperties_childNodes. by destruct n. Qed.

(** ** The node assembler *)

Section AssemblerFacts.
Context (classes : NodeClasses).

Lemma createNode_fixed k children def text :
  variadic (arity classes k) = false →
  createNode classes k children def text =
    Some (setProperties
            (Mml k (cleanChildren classes children ++ trailing text) ∅ ∅ None) def).
Proof.
  intros Hk. unfold createNode. rewrite Hk. cbn.
  destruct text; cbn; [done|]. by rewrite app_nil_r.
Qed.

Lemma createNode_variadic_many k children def text :
  variadic (arity classes k) = true →
  length children ≠ 1 →
  createNode classes k children def text =
    Some (setProperties (Mml k (children ++ trailing text) ∅ ∅ None) def).
Proof.
  intros Hk Hlen. unfold createNode. rewrite Hk.
  rewrite bool_decide_eq_false_2 by done. cbn.
  destruct text; cbn; [done|]. by rewrite app_nil_r.
Qed.

Lemma createNode_variadic_one k c def text :
  variadic (arity classes k) = true →
  createNode classes k [Some c] def text =
    Some (setProperties
            (Mml k ((if isInferred classes c then getChildren c else [Some c])
                    ++ trailing text) ∅ ∅ None) def).
Proof.
  intros Hk. unfold createNode. rewrite Hk. cbn.
  destruct (isInferred classes c); destruct text; cbn; rewrite ?app_nil_r; done.
Qed.

Lemma createNode_pair k x y :
  createNode classes k [x; y] ∅ None =
    Some (Mml k (attached classes k [x; y]) ∅ ∅ None).
Proof.
  unfold attached. destruct (variadic (arity classes k)) eqn:Hk.
  - rewrite createNode_variadic_many by done.
    by rewrite setProperties_empty, app_nil_r.
  - rewrite createNode_fixed by done.
    by rewrite setProperties_empty, app_nil_r.
Qed.

Lemma cleanChildren_leading children :
  cleanChildren classes children =
    (λ c, Some (mrowOf classes c)) <$> leading children.
Proof.
  induction children as [|[c|] rest IH]; cbn; [done| |done].
  rewrite IH. unfold mrowOf. by destruct (isInferred classes c).
Qed.

Lemma leading_app_None before after :
  leading (before ++ None :: after) = leading before.
Proof.
  induction before as [|[c|] rest IH]; cbn; [done| |done]. by rewrite IH.
Qed.

Lemma leading_Some (children : list MmlNode) : leading (Some <$> children) = children.
Proof. induction children as [|c rest IH]; cbn; [done|]. by rewrite IH. Qed.

Lemma leading_length children : length (leading children) ≤ length children.
Proof. induction children as [|[c|] rest IH]; cbn; lia. Qed.

End AssemblerFacts.

(** ** References into the tree *)

Lemma slot_lookup cs i c : slot cs i = Some c ↔ cs !! i = Some (Some c).
Proof. unfold slot. destruct (cs !! i) as [[?|]|]; cbn; naive_solver. Qed.

Lemma slot_middle done (c : option MmlNode) cs : slot (done ++ c :: cs) (length done) = c.
Proof. unfold slot. by rewrite list_lookup_middle. Qed.

Lemma insert_middle done (c c' : option MmlNode) cs :
  <[length done:=c']> (done ++ c :: cs) = done ++ c' :: cs.
Proof. induction done; cbn; [done|]. by f_equal. Qed.

Lemma slot_fmap (f : MmlNode → MmlNode) cs i :
  slot (fmap (M:=list) (fmap (M:=option) f) cs) i = f <$> slot cs i.
Proof. unfold slot. rewrite list_lookup_fmap. by destruct (cs !! i) as [[?|]|]. Qed.

Lemma node_at_app root q p :
  node_at root (q ++ p) = node_at root q ≫= λ n, node_at n p.
Proof.
  revert root. induction q as [|i q IH]; intros root; cbn; [done|].
  destruct (slot (childNodes root) i); cbn; auto.
Qed.

Lemma update_at_app root q p f :
  update_at root (q ++ p) f = update_at root q (λ n, update_at n p f).
Proof.
  revert root. induction q as [|i q IH]; intros root; cbn; [done|].
  destruct (slot (childNodes root) i); [|done]. by rewrite IH.
Qed.

Lemma update_at_ext root q f g n :
  node_at root q = Some n → f n = g n → update_at root q f = update_at root q g.
Proof.
  revert root. induction q as [|i q IH]; intros root Hn Hfg; cbn in *.
  - by injection Hn as ->.
  - destruct (slot (childNodes root) i) as [child|]; [|done].
    cbn in Hn. by rewrite (IH child).
Qed.

Lemma update_at_id root q n :
  node_at root q = Some n → update_at root q (λ _, n) = root.
Proof.
  revert root. induction q as [|i q IH]; intros root Hn; cbn in *.
  - congruence.
  - destruct (slot (childNodes root) i) as [child|] eqn:Hs; [|done].
    cbn in Hn. rewrite (IH child Hn). apply slot_lookup in Hs.
    rewrite list_insert_id by done. by destruct root.
Qed.

Lemma node_at_update_at root q f n :
  node_at root q = Some n → node_at (update_at root q f) q = Some (f n).
Proof.
  revert root. induction q as [|i q IH]; intros root Hn; cbn in *.
  - congruence.
  - destruct (slot (childNodes root) i) as [child|] eqn:Hs; [|done].
    cbn in Hn. apply slot_lookup in Hs.
    destruct root as [k cs a p t|s]; [|done]. cbn in *.
    unfold slot. rewrite list_lookup_insert_eq by (by eapply lookup_lt_Some).
    cbn. auto.
Qed.

Lemma update_at_twice root q f g :
  update_at (update_at root q f) q g = update_at root q (λ n, g (f n)).
Proof.
  revert root. induction q as [|i q IH]; intros root; cbn; [done|].
  destruct (slot (childNodes root) i) as [child|] eqn:Hs; [|by rewrite Hs].
  apply slot_lookup in Hs.
  destruct root as [k cs a p t|s]; [|done]. cbn in *.
  unfold slot. rewrite list_lookup_insert_eq by (by eapply lookup_lt_Some).
  cbn. by rewrite list_insert_insert_eq, IH.
Qed.

Lemma update_at_child root q i f parent child :
  node_at root q = Some parent →
  slot (childNodes parent) i = Some child →
  update_at root (q ++ [i]) f =
    update_at root q (λ p, replaceChild p i (f child)).
Proof.
  intros Hq Hi. rewrite update_at_app.
  apply (update_at_ext _ _ _ _ parent Hq). cbn. by rewrite Hi.
Qed.

Lemma parent_of_child up i : parent_of (up ++ [i]) = Some (up, i).
Proof. unfold parent_of. by rewrite reverse_snoc, reverse_involutive. Qed.

(** ** The repair pass computes [repaired] *)

Section RepairFacts.
Context (classes : NodeClasses).

Lemma rewriteNode_total n : rewriteNode classes n = Some (rewritten classes n).
Proof.
  unfold rewritten, rewriteNode.
  destruct (isKind n "msubsup");
    [destruct (slot (childNodes n) (msubsup_sub classes))
    |destruct (slot (childNodes n) (munderover_under classes))];
    rewrite createNode_pair; done.
Qed.

Lemma needsRewrite_same n n' :
  kind n = kind n' →
  (∀ i, missing (slot (childNodes n) i) = missing (slot (childNodes n') i)) →
  needsRewrite classes n = needsRewrite classes n'.
Proof. intros Hk Hs. unfold needsRewrite, isKind. by rewrite Hk, !Hs. Qed.

Lemma needsRewrite_repaired_children k cs a p t :
  needsRewrite classes
    (Mml k (fmap (M:=list) (fmap (M:=option) (repaired classes)) cs) a p t) =
  needsRewrite classes (Mml k cs a p t).
Proof.
  apply needsRewrite_same; [done|]. intros i. cbn.
  rewrite slot_fmap. by destruct (slot cs i).
Qed.

Lemma cleanSubSup_loop_app l1 l2 root :
  cleanSubSup_loop classes (l1 ++ l2) root =
  cleanSubSup_loop classes l1 root ≫= cleanSubSup_loop classes l2.
Proof.
  revert root. induction l1 as [|n l1 IH]; intros root; cbn; [done|].
  destruct (cleanSubSup_step classes root n); cbn; auto.
Qed.

(** One round of the loop on a collected node puts its replacement
    where the node was. *)
Lemma cleanSubSup_step_at root q n :
  node_at root q = Some n →
  cleanSubSup_step classes root q =
    Some (update_at root q (λ _, rewritten classes n)).
Proof.
  intros Hq. unfold cleanSubSup_step. rewrite Hq. cbn.
  rewrite rewriteNode_total. cbn.
  destruct q as [|i q _] using rev_ind; [done|].
  rewrite parent_of_child. f_equal.
  rewrite node_at_app in Hq.
  destruct (node_at root q) as [parent|] eqn:Hp; [|done]. cbn in Hq.
  destruct (slot (childNodes parent) i) as [child|] eqn:Hi; [|done].
  by rewrite (update_at_child root q i (λ _, rewritten classes n) parent child Hp Hi).
Qed.

Lemma walkChildren_repairs q cs :
  (∀ j c, slot cs j = Some c →
     ∀ q d, ∃ l, walkTree (collect classes) q c d = l ++ d ∧ Repairs classes q c l) →
  ∀ done d, ∃ l,
    walkChildren (walkTree (collect classes)) q (length done) cs d = l ++ d ∧
    ∀ root k a p t,
      node_at root q = Some (Mml k (done ++ cs) a p t) →
      cleanSubSup_loop classes l root =
        Some (update_at root q (λ _,
          Mml k (done ++ fmap (M:=list) (fmap (M:=option) (repaired classes)) cs) a p t)).
Proof.
  induction cs as [|c cs IH]; intros Hcs done d.
  - exists []. split; [done|]. intros root k a p t Hq. cbn.
    by rewrite (update_at_id _ _ _ Hq).
  - cbn [walkChildren].
    set (d1 := match c with
               | Some child => walkTree (collect classes) (q ++ [length done]) child d
               | None => d
               end).
    destruct (IH (λ j x Hx, Hcs (S j) x Hx) (done ++ [c]) d1) as (l' & Hl' & Hrun').
    rewrite length_app, Nat.add_comm in Hl'. cbn in Hl'.
    destruct c as [child|].
    + destruct (Hcs 0 child eq_refl (q ++ [length done]) d) as (lc & Hlc & Hrunc).
      exists (l' ++ lc). split.
      { rewrite Hl'. unfold d1. rewrite Hlc. by rewrite app_assoc. }
      intros root k a p t Hq.
      rewrite cleanSubSup_loop_app.
      rewrite (Hrun' root k a p t) by (by rewrite <- app_assoc).
      cbn [mbind option_bind].
      set (X := Mml k ((done ++ [Some child]) ++
                 fmap (M:=list) (fmap (M:=option) (repaired classes)) cs) a p t).
      assert (HX : node_at (update_at root q (λ _, X)) q = Some X)
        by exact (node_at_update_at root q (λ _, X) _ Hq).
      assert (Hchild : slot (childNodes X) (length done) = Some child).
      { unfold X. cbn. rewrite <- app_assoc. apply slot_middle. }
      assert (Hc : node_at (update_at root q (λ _, X)) (q ++ [length done]) = Some child).
      { rewrite node_at_app, HX. cbn [mbind option_bind node_at].
        by rewrite Hchild. }
      rewrite (Hrunc _ Hc).
      f_equal. rewrite (update_at_child _ _ _ _ X child HX Hchild).
      rewrite update_at_twice. unfold replaceChild, X. cbn.
      rewrite <- app_assoc. cbn. by rewrite insert_middle.
    + exists l'. split; [done|]. intros root k a p t Hq.
      rewrite (Hrun' root k a p t) by (by rewrite <- app_assoc).
      by rewrite <- app_assoc.
Qed.

Lemma walkTree_repairs t :
  ∀ q d, ∃ l, walkTree (collect classes) q t d = l ++ d ∧ Repairs classes q t l.
Proof.
  induction t as [s|k cs a p t IH] using MmlNode_rect'; intros q d.
  - exists []. split; [done|]. intros root Hq. cbn.
    by rewrite (update_at_id _ _ _ Hq).
  - cbn [walkTree].
    destruct (walkChildren_repairs q cs IH [] (collect classes q (Mml k cs a p t) d))
      as (l & Hl & Hrun).
    cbn [length app] in Hl, Hrun. rewrite Hl.
    assert (Hrep : repaired classes (Mml k cs a p t) =
      let n' := Mml k (fmap (M:=list) (fmap (M:=option) (repaired classes)) cs) a p t in
      if needsRewrite classes (Mml k cs a p t) then rewritten classes n' else n').
    { cbn [repaired]. by rewrite needsRewrite_repaired_children. }
    unfold collect, Repairs. rewrite Hrep. clear Hrep.
    destruct (needsRewrite classes (Mml k cs a p t)) eqn:Hn.
    + exists (l ++ [q]). split; [by rewrite <- app_assoc|].
      intros root Hq. rewrite cleanSubSup_loop_app, (Hrun _ _ _ _ _ Hq).
      cbn [mbind option_bind cleanSubSup_loop].
      set (n' := Mml k (fmap (M:=list) (fmap (M:=option) (repaired classes)) cs) a p t).
      rewrite (cleanSubSup_step_at _ q n')
        by exact (node_at_update_at root q (λ _, n') _ Hq).
      cbn. by rewrite update_at_twice.
    + exists l. split; [done|]. intros root Hq. by apply Hrun.
Qed.

(** The pass returns the tree repaired bottom-up. *)
Lemma cleanSubSup_repaired t : cleanSubSup classes t = Some (repaired classes t).
Proof.
  unfold cleanSubSup.
  destruct (walkTree_repairs t [] []) as (l & -> & Hrun).
  rewrite app_nil_r. by rewrite (Hrun t).
Qed.

End RepairFacts.

(** ** What the pass leaves behind *)

Section RepairShape.
Context (classes : NodeClasses).

Lemma rewritten_eq n :
  rewritten classes n =
  copyAttributes n
    (let children := childNodes n in
     if isKind n "msubsup" then
       match slot children (msubsup_sub classes) with
       | Some _ =>
           Mml "msub" (attached classes "msub"
             [slot children (msubsup_base classes);
              slot children (msubsup_sub classes)]) ∅ ∅ None
       | None =>
           Mml "msup" (attached classes "msup"
             [slot children (msubsup_base classes);
              slot children (msubsup_sup classes)]) ∅ ∅ None
       end
     else
       match slot children (munderover_under classes) with
       | Some _ =>
           Mml "munder" (attached classes "munder"
             [slot children (munderover_base classes);
              slot children (munderover_under classes)]) ∅ ∅ None
       | None =>
           Mml "mover" (attached classes "mover"
             [slot children (munderover_base classes);
              slot children (munderover_over classes)]) ∅ ∅ None
       end).
Proof.
  unfold rewritten, rewriteNode. cbn zeta.
  destruct (isKind n "msubsup");
    [destruct (slot (childNodes n) (msubsup_sub classes))
    |destruct (slot (childNodes n) (munderover_under classes))];
    rewrite createNode_pair; done.
Qed.

Lemma rewritten_copy n :
  ∃ k2 children,
    k2 ∈ ["msub"; "msup"; "munder"; "mover"] ∧
    rewritten classes n = copyAttributes n (Mml k2 children ∅ ∅ None).
Proof.
  rewrite rewritten_eq. cbn zeta.
  destruct (isKind n "msubsup");
    [destruct (slot (childNodes n) (msubsup_sub classes))
    |destruct (slot (childNodes n) (munderover_under classes))];
    eexists _, _; (split; [|reflexivity]);
    repeat first [apply list_elem_of_here | apply list_elem_of_further].
Qed.

(** The replacement is a single-slot scripted node over entries of
    the old node. *)
Lemma rewritten_cases n :
  ∃ k2 x y a' p' t',
    rewritten classes n = Mml k2 (attached classes k2 [x; y]) a' p' t' ∧
    k2 ∈ ["msub"; "msup"; "munder"; "mover"] ∧
    (∀ c, x = Some c → ∃ i, slot (childNodes n) i = Some c) ∧
    (∀ c, y = Some c → ∃ i, slot (childNodes n) i = Some c).
Proof.
  rewrite rewritten_eq. cbn zeta.
  destruct (isKind n "msubsup");
    [destruct (slot (childNodes n) (msubsup_sub classes)) eqn:E
    |destruct (slot (childNodes n) (munderover_under classes)) eqn:E];
    match goal with
    | |- context [copyAttributes ?o (Mml ?k ?cs ?a ?p ?t)] =>
        destruct (copyAttributes_Mml o k cs a p t) as (a' & p' & -> & _)
    end;
    eexists _, _, _, _, _, _; (split; [reflexivity|]);
    (split; [repeat first [apply list_elem_of_here | apply list_elem_of_further]|]);
    split; intros c Hc; eexists; rewrite <- Hc;
    first [reflexivity | symmetry; eassumption | eassumption].
Qed.

Lemma needsRewrite_single k cs a p t :
  k ∈ ["msub"; "msup"; "munder"; "mover"] →
  needsRewrite classes (Mml k cs a p t) = false.
Proof.
  intros Hk. unfold needsRewrite, isKind. cbn.
  rewrite !bool_decide_eq_false_2; [done|intros ->..];
    repeat (apply elem_of_cons in Hk as [Hk|Hk]; [discriminate Hk|]);
    by apply elem_of_nil in Hk.
Qed.

Lemma Settled_children n i c :
  Settled classes n → slot (childNodes n) i = Some c → Settled classes c.
Proof.
  intros Hn. destruct Hn as [s|k cs a p t _ Hcs]; cbn.
  - destruct i; done.
  - apply Hcs.
Qed.

Lemma Settled_mrowOf c : Settled classes c → Settled classes (mrowOf classes c).
Proof.
  intros Hc. unfold mrowOf. destruct (isInferred classes c); [|done].
  unfold create.
  destruct (copyAttributes_Mml c "mrow" (getChildren c) ∅ ∅ None) as (a' & p' & -> & _).
  constructor.
  - unfold needsRewrite, isKind. cbn. by rewrite !bool_decide_eq_false_2.
  - intros i x Hx. by eapply Settled_children.
Qed.

Lemma Settled_attached k x y i c :
  (∀ c, x = Some c → Settled classes c) →
  (∀ c, y = Some c → Settled classes c) →
  slot (attached classes k [x; y]) i = Some c → Settled classes c.
Proof.
  intros Hx Hy. unfold attached.
  destruct (variadic (arity classes k)).
  - destruct i as [|[|i]]; cbn; intros ?; auto; done.
  - rewrite cleanChildren_leading.
    destruct x as [x|]; [|by destruct i].
    destruct y as [y|]; cbn.
    + destruct i as [|[|i]]; cbn; [| |done]; intros [= <-];
        apply Settled_mrowOf; auto.
    + destruct i as [|i]; cbn; [|by destruct i]. intros [= <-].
      apply Settled_mrowOf; auto.
Qed.

Lemma repaired_Settled t : Settled classes (repaired classes t).
Proof.
  induction t as [s|k cs a p t IH] using MmlNode_rect'; [constructor|].
  cbn [repaired].
  set (cs' := fmap (M:=list) (fmap (M:=option) (repaired classes)) cs).
  assert (Hcs' : ∀ i c, slot cs' i = Some c → Settled classes c).
  { intros i c. unfold cs'. rewrite slot_fmap.
    destruct (slot cs i) as [c0|] eqn:E; [|done].
    intros [= <-]. by eapply IH. }
  destruct (needsRewrite classes (Mml k cs' a p t)) eqn:Hn.
  - destruct (rewritten_cases (Mml k cs' a p t))
      as (k2 & x & y & a' & p' & t' & -> & Hk2 & Hx & Hy).
    constructor; [by apply needsRewrite_single|].
    intros i c. apply Settled_attached.
    + intros c0 Hc0. destruct (Hx c0 Hc0) as (j & Hj). by eapply Hcs'.
    + intros c0 Hc0. destruct (Hy c0 Hc0) as (j & Hj). by eapply Hcs'.
  - by constructor.
Qed.

Lemma Settled_repaired n : Settled classes n → repaired classes n = n.
Proof.
  induction 1 as [s|k cs a p t Hn Hcs IH]; [done|].
  cbn [repaired].
  assert (E : fmap (M:=list) (fmap (M:=option) (repaired classes)) cs = cs).
  { apply list_eq. intros i. rewrite list_lookup_fmap.
    destruct (cs !! i) as [[c|]|] eqn:E; cbn; [|done..].
    do 2 f_equal. apply (IH i). by apply slot_lookup. }
  by rewrite E, Hn.
Qed.

Lemma Settled_walkTree n :
  Settled classes n → ∀ q d, walkTree (collect classes) q n d = d.
Proof.
  induction 1 as [s|k cs a p t Hn Hcs IH]; intros q d; [done|].
  cbn [walkTree]. unfold collect at 2. rewrite Hn.
  clear Hn Hcs. revert d. generalize 0.
  induction cs as [|c cs IHcs]; intros j d; cbn; [done|].
  assert (Hc : match c with
               | Some child => walkTree (collect classes) (q ++ [j]) child d
               | None => d
               end = d).
  { destruct c as [c|]; [|done]. by apply (IH 0). }
  rewrite Hc. apply IHcs. intros i x Hx. exact (IH (S i) x Hx).
Qed.

Lemma cleanedChildren_repaired cs :
  cleanedChildren classes cs =
    fmap (M:=list) (fmap (M:=option) (repaired classes)) cs.
Proof.
  unfold cleanedChildren. apply list_fmap_ext. intros i [c|] _; cbn; [|done].
  by rewrite cleanSubSup_repaired.
Qed.

End RepairShape.

(** ** The repair pass: statements of the specification *)

(** C2.  The pass is idempotent: on every tree it returns a tree [r] on
    which a second pass returns [r] again; the first loop of the second
    pass collects nothing; and the node built for a rewrite is never of
    kind [msubsup] or [munderover]. *)
Theorem cleanSubSup_idempotent classes t :
  ∃ r, cleanSubSup classes t = Some r ∧
       cleanSubSup classes r = Some r ∧
       walkTree (collect classes) [] r [] = [] ∧
       ∀ n, ∃ r', rewriteNode classes n = Some r' ∧
                  kind r' ≠ "msubsup" ∧ kind r' ≠ "munderover".
Proof.
  exists (repaired classes t).
  pose proof (repaired_Settled classes t) as Hs.
  split; [apply cleanSubSup_repaired|]. split; [|split].
  - by rewrite cleanSubSup_repaired, Settled_repaired.
  - by apply Settled_walkTree.
  - intros n. exists (rewritten classes n). split; [apply rewriteNode_total|].
    destruct (rewritten_cases classes n) as (k2 & x & y & a' & p' & t' & -> & Hk & _).
    cbn. split; intros ->;
      repeat (apply elem_of_cons in Hk as [Hk|Hk]; [discriminate Hk|]);
      by apply elem_of_nil in Hk.
Qed.

(** C1 (the claim as stated fails).  A node of kind [msubsup] whose
    subscript slot is filled and whose superscript slot is missing, but
    whose base slot is empty (as [createNode] and [setData] build it),
    is rewritten to an [msub] node with no children at all: the
    subscript is not among them. *)
Lemma cleanSubSup_without_base_drops_script :
  (n ← createNode mathml "msubsup" [] ∅ None; Some (setData n 1 (Some two_mn))) =
    Some sub_without_base ∧
  kind sub_without_base = "msubsup" ∧
  slot (childNodes sub_without_base) (msubsup_sub mathml) = Some two_mn ∧
  slot (childNodes sub_without_base) (msubsup_sup mathml) = None ∧
  cleanSubSup mathml sub_without_base = Some (Mml "msub" [] ∅ ∅ None).
Proof. vm_compute. repeat split; reflexivity. Qed.

Lemma attached_pair classes k2 b s :
  attached classes k2 [b; Some s] =
    if variadic (arity classes k2) then [b; Some s]
    else match b with
         | Some b => [Some (mrowOf classes b); Some (mrowOf classes s)]
         | None => []
         end.
Proof.
  unfold attached. destruct (variadic (arity classes k2)); [done|].
  rewrite cleanChildren_leading. by destruct b.
Qed.

(** C1 (as amended).  The pass returns a root [r].  A node that needs
    no rewrite keeps its kind and state, and each of its child slots
    holds what the pass makes of that child.  A node of kind [msubsup]
    with exactly one of its two script slots missing becomes a node of
    kind [msub] when the subscript is present and of kind [msup]
    otherwise, and a node of kind [munderover] becomes [munder] or
    [mover] in the same way, whatever the base slot holds.  The
    children of the new node are what [createNode] attaches for the
    pair (base, script): under a fixed arity the base and the script
    in that order, an inferred one by way of its new [mrow], and no
    child at all when the base slot is empty; under a variadic arity
    the two entries as they are.  Base and script are what the pass
    makes of the old node's children. *)
Theorem cleanSubSup_rewrites classes k cs a p t :
  ∃ r, cleanSubSup classes (Mml k cs a p t) = Some r ∧
    (needsRewrite classes (Mml k cs a p t) = false →
       r = Mml k (cleanedChildren classes cs) a p t) ∧
    (∀ s, k = "msubsup" →
       slot (cleanedChildren classes cs) (msubsup_sub classes) = Some s →
       slot (cleanedChildren classes cs) (msubsup_sup classes) = None →
       kind r = "msub" ∧
       childNodes r =
         attached classes "msub"
           [slot (cleanedChildren classes cs) (msubsup_base classes); Some s]) ∧
    (∀ s, k = "msubsup" →
       slot (cleanedChildren classes cs) (msubsup_sub classes) = None →
       slot (cleanedChildren classes cs) (msubsup_sup classes) = Some s →
       kind r = "msup" ∧
       childNodes r =
         attached classes "msup"
           [slot (cleanedChildren classes cs) (msubsup_base classes); Some s]) ∧
    (∀ s, k = "munderover" →
       slot (cleanedChildren classes cs) (munderover_under classes) = Some s →
       slot (cleanedChildren classes cs) (munderover_over classes) = None →
       kind r = "munder" ∧
       childNodes r =
         attached classes "munder"
           [slot (cleanedChildren classes cs) (munderover_base classes); Some s]) ∧
    (∀ s, k = "munderover" →
       slot (cleanedChildren classes cs) (munderover_under classes) = None →
       slot (cleanedChildren classes cs) (munderover_over classes) = Some s →
       kind r = "mover" ∧
       childNodes r =
         attached classes "mover"
           [slot (cleanedChildren classes cs) (munderover_base classes); Some s]) ∧
    (∀ k2 b s,
       attached classes k2 [b; Some s] =
         if variadic (arity classes k2) then [b; Some s]
         else match b with
              | Some b => [Some (mrowOf classes b); Some (mrowOf classes s)]
              | None => []
              end) ∧
    (∀ c, isInferred classes c = false → mrowOf classes c = c).
Proof.
  exists (repaired classes (Mml k cs a p t)).
  split; [apply cleanSubSup_repaired|].
  rewrite cleanedChildren_repaired. cbn [repaired].
  set (cs' := fmap (M:=list) (fmap (M:=option) (repaired classes)) cs).
  pose proof (needsRewrite_repaired_children classes k cs a p t) as Hsame.
  fold cs' in Hsame.
  split; [by intros Hn; rewrite Hsame, Hn|].
  assert (Hmrow : ∀ c, isInferred classes c = false → mrowOf classes c = c)
    by (by intros c Hc; unfold mrowOf; rewrite Hc).
  split; [|split; [|split; [|split; [|split; [apply attached_pair|exact Hmrow]]]]];
    intros s -> Hs1 Hs2.
  all: match goal with
       | |- context [needsRewrite ?c ?n] =>
           assert (Hn : needsRewrite c n = true)
             by (unfold needsRewrite, isKind; cbn; rewrite ?Hs1, ?Hs2; cbn;
                 by rewrite ?orb_true_r)
       end.
  all: rewrite Hn, rewritten_eq, ?copyAttributes_kind, ?copyAttributes_childNodes.
  all: unfold isKind; cbn [childNodes kind].
  all: rewrite ?(bool_decide_eq_true_2 ("msubsup" = "msubsup")),
         ?(bool_decide_eq_false_2 ("munderover" = "msubsup")) by done.
  all: rewrite ?Hs1, ?Hs2; by rewrite ?Hs1, ?Hs2.
Qed.

(** The amended C1 on [sub_only], as the child of a row and as a root,
    and on [sub_without_base]. *)
Lemma cleanSubSup_rewrites_witness :
  cleanSubSup mathml (Mml "mrow" [Some sub_only] ∅ ∅ None) =
    Some (Mml "mrow" [Some (Mml "msub" [Some x_mi; Some two_mn] ∅ ∅ None)] ∅ ∅ None) ∧
  (∃ r, cleanSubSup mathml sub_only = Some r ∧
        kind r = "msub" ∧ childNodes r = [Some x_mi; Some two_mn]) ∧
  (∃ r, cleanSubSup mathml sub_without_base = Some r ∧
        kind r = "msub" ∧ childNodes r = []).
Proof.
  split; [|split].
  - destruct (cleanSubSup_rewrites mathml "mrow" [Some sub_only] ∅ ∅ None)
      as (r & Hr & Hkeep & _).
    rewrite Hr, (Hkeep eq_refl). vm_compute. reflexivity.
  - destruct (cleanSubSup_rewrites mathml "msubsup" [Some x_mi; Some two_mn] ∅ ∅ None)
      as (r & Hr & _ & Hsub & _).
    exists r. split; [exact Hr|].
    destruct (Hsub two_mn eq_refl) as [Hk Hc]; [vm_compute; reflexivity..|].
    split; [exact Hk|]. rewrite Hc. vm_compute. reflexivity.
  - destruct (cleanSubSup_rewrites mathml "msubsup" [None; Some two_mn] ∅ ∅ None)
      as (r & Hr & _ & Hsub & _).
    exists r. split; [exact Hr|].
    destruct (Hsub two_mn eq_refl) as [Hk Hc]; [vm_compute; reflexivity..|].
    split; [exact Hk|]. rewrite Hc. vm_compute. reflexivity.
Defined.

(** C3 (the claim as stated fails).  The texClass of the old node is not
    carried over: [sup_only_classed], as [createNode] and [setData]
    build it, has texClass 0, and its replacement has none. *)
Lemma cleanSubSup_loses_texClass :
  (n ← createNode mathml "msubsup" [Some x_mi]
         {["texClass" := PNumber 0; "mathcolor" := PString "red";
           "movesupsub" := PBoolean true]} None;
   Some (setData n 2 (Some two_mn))) = Some sup_only_classed ∧
  needsRewrite mathml sup_only_classed = true ∧
  texClass sup_only_classed = Some (PNumber 0) ∧
  ∃ r, cleanSubSup mathml sup_only_classed = Some r ∧ texClass r = None.
Proof.
  split; [vm_compute; reflexivity|].
  split; [reflexivity|]. split; [reflexivity|].
  eexists. split; [vm_compute; reflexivity|reflexivity].
Qed.

(** C3 (as amended).  The node that replaces a rewritten node [n] has
    as attributes those of [n], overlaid with the properties of [n]
    whose names the classifier sends to the attribute map; as typed
    properties exactly the properties of [n] named [movablelimits] or
    in the allow-list; and as texClass the property of [n] named
    [texClass], if there is one, and none otherwise: the texClass
    field of [n] is not read. *)
Theorem cleanSubSup_copies_state classes n :
  needsRewrite classes n = true →
  ∃ r, cleanSubSup classes n = Some r ∧
    (∀ key, attributes r !! key =
       routed (genericKey key) (getAllProperties n !! key) (attributes n !! key)) ∧
    (∀ key, getAllProperties r !! key =
       routed (routedToProperty key) (getAllProperties n !! key) None) ∧
    texClass r = getAllProperties n !! "texClass".
Proof.
  intros Hn. rewrite cleanSubSup_repaired. eexists. split; [reflexivity|].
  destruct n as [k cs a p t|s]; [|done].
  cbn [repaired]. rewrite needsRewrite_repaired_children, Hn.
  destruct (rewritten_copy classes
              (Mml k (fmap (M:=list) (fmap (M:=option) (repaired classes)) cs) a p t))
    as (k2 & ch & Hk2 & ->).
  destruct (copyAttributes_Mml
              (Mml k (fmap (M:=list) (fmap (M:=option) (repaired classes)) cs) a p t)
              k2 ch ∅ ∅ None) as (a' & p' & -> & Ha & Hp).
  cbn. split; [|split].
  - intros key. rewrite Ha. rewrite routedToAttribute_generic; [done|intros ->..];
      repeat (apply elem_of_cons in Hk2 as [Hk2|Hk2]; [discriminate Hk2|]);
      by apply elem_of_nil in Hk2.
  - intros key. by rewrite Hp, lookup_empty.
  - by destruct (p !! "texClass").
Qed.

(** The amended C3 on [sup_only_classed]: the attribute and the typed
    property are found on the replacement, the texClass is not. *)
Lemma cleanSubSup_copies_state_witness :
  ∃ r, cleanSubSup mathml sup_only_classed = Some r ∧
       attributes r !! "mathcolor" = Some (PString "red") ∧
       getAllProperties r !! "movesupsub" = Some (PBoolean true) ∧
       texClass r = None.
Proof.
  destruct (cleanSubSup_copies_state mathml sup_only_classed eq_refl)
    as (r & Hr & Ha & Hp & Ht).
  exists r. split; [exact Hr|]. split; [|split].
  - rewrite Ha. vm_compute. reflexivity.
  - rewrite Hp. vm_compute. reflexivity.
  - rewrite Ht. vm_compute. reflexivity.
Defined.

(** C9.  Where the single-slot kinds have a fixed arity: a node of kind
    [msubsup] with both script slots missing becomes a node of kind
    [msup] whose only child is the base (an inferred base by way of its
    new [mrow]), and none if the base slot is empty too; a node of kind
    [munderover] with both slots missing becomes [mover] likewise.
    The base is what the pass makes of the old base. *)
Theorem cleanSubSup_both_missing classes cs a p t :
  variadic (arity classes "msup") = false →
  variadic (arity classes "mover") = false →
  (slot cs (msubsup_sub classes) = None →
   slot cs (msubsup_sup classes) = None →
   ∃ r, cleanSubSup classes (Mml "msubsup" cs a p t) = Some r ∧
        kind r = "msup" ∧
        childNodes r =
          match slot (cleanedChildren classes cs) (msubsup_base classes) with
          | Some b => [Some (mrowOf classes b)]
          | None => []
          end) ∧
  (slot cs (munderover_under classes) = None →
   slot cs (munderover_over classes) = None →
   ∃ r, cleanSubSup classes (Mml "munderover" cs a p t) = Some r ∧
        kind r = "mover" ∧
        childNodes r =
          match slot (cleanedChildren classes cs) (munderover_base classes) with
          | Some b => [Some (mrowOf classes b)]
          | None => []
          end).
Proof.
  intros Hsup Hover.
  split; intros H1 H2; rewrite cleanSubSup_repaired; (eexists; split; [reflexivity|]).
  all: rewrite cleanedChildren_repaired; cbn [repaired].
  all: rewrite needsRewrite_repaired_children.
  all: match goal with
       | |- context [needsRewrite ?c ?n] =>
           assert (Hn : needsRewrite c n = true)
             by (unfold needsRewrite, isKind; cbn; rewrite ?H1, ?H2; cbn;
                 by rewrite ?orb_true_r)
       end.
  all: rewrite Hn, rewritten_eq, copyAttributes_kind, copyAttributes_childNodes.
  all: unfold isKind; cbn; rewrite !slot_fmap, ?H1, ?H2; cbn.
  all: rewrite ?(bool_decide_eq_true_2 ("msubsup" = "msubsup")),
         ?(bool_decide_eq_false_2 ("munderover" = "msubsup")) by done.
  all: unfold attached; rewrite ?Hsup, ?Hover, cleanChildren_leading.
  - destruct (slot cs (msubsup_base classes)); split; reflexivity.
  - destruct (slot cs (munderover_base classes)); split; reflexivity.
Qed.

(** C9 on [base_only] and [base_only_limits]. *)
Lemma cleanSubSup_both_missing_witness :
  (∃ r, cleanSubSup mathml base_only = Some r ∧
        kind r = "msup" ∧ childNodes r = [Some x_mi]) ∧
  (∃ r, cleanSubSup mathml base_only_limits = Some r ∧
        kind r = "mover" ∧ childNodes r = [Some x_mi]).
Proof.
  split.
  - destruct (cleanSubSup_both_missing mathml [Some x_mi] ∅ ∅ None eq_refl eq_refl)
      as [H _].
    destruct (H eq_refl eq_refl) as (r & Hr & Hk & Hc).
    exists r. split; [exact Hr|]. split; [exact Hk|].
    rewrite Hc. vm_compute. reflexivity.
  - destruct (cleanSubSup_both_missing mathml [Some x_mi] ∅ ∅ None eq_refl eq_refl)
      as [_ H].
    destruct (H eq_refl eq_refl) as (r & Hr & Hk & Hc).
    exists r. split; [exact Hr|]. split; [exact Hk|].
    rewrite Hc. vm_compute. reflexivity.
Defined.

(** ** The node assembler: statements of the specification *)

(** C4 (the claim as stated fails).  For a kind of variadic arity, a
    children sequence whose only entry holds no value is not attached
    unchanged: reading [isInferred] from that entry throws. *)
Lemma createNode_variadic_empty_entry :
  variadic (arity mathml "mrow") = true ∧
  createNode mathml "mrow" [None] ∅ None = None.
Proof. split; reflexivity. Qed.

(** C4 (as amended).  For a kind of variadic arity and a children
    sequence other than the one whose only entry holds no value,
    [createNode] returns a node of that kind; its children are the
    children of the supplied child when exactly one child is supplied
    and it is inferred, and the supplied sequence unchanged otherwise,
    followed by the trailing text leaf when one is supplied. *)
Theorem createNode_variadic classes k children def text :
  variadic (arity classes k) = true →
  children ≠ [None] →
  ∃ r, createNode classes k children def text = Some r ∧
       kind r = k ∧
       childNodes r =
         match children with
         | [Some c] => if isInferred classes c then getChildren c else children
         | _ => children
         end ++ trailing text.
Proof.
  intros Hk Hne.
  destruct (decide (length children = 1)) as [Hlen|Hlen].
  - destruct children as [|[c|] [|]]; try done.
    rewrite createNode_variadic_one by done. eexists. split; [reflexivity|].
    rewrite setProperties_kind, setProperties_childNodes. cbn.
    by destruct (isInferred classes c).
  - rewrite createNode_variadic_many by done. eexists. split; [reflexivity|].
    rewrite setProperties_kind, setProperties_childNodes. cbn.
    by destruct children as [|[c|] [|]].
Qed.

(** The amended C4 on a row given one inferred row, and given two
    children. *)
Lemma createNode_variadic_witness :
  (∃ r, createNode mathml "mrow" [Some inferred_row] ∅ None = Some r ∧
        kind r = "mrow" ∧ childNodes r = [Some x_mi; Some two_mn]) ∧
  (∃ r, createNode mathml "mrow" [Some inferred_row; Some three_mn] ∅ None = Some r ∧
        kind r = "mrow" ∧ childNodes r = [Some inferred_row; Some three_mn]).
Proof.
  split.
  - destruct (createNode_variadic mathml "mrow" [Some inferred_row] ∅ None eq_refl)
      as (r & Hr & Hk & Hc); [discriminate|].
    exists r. split; [exact Hr|]. split; [exact Hk|]. rewrite Hc. reflexivity.
  - destruct (createNode_variadic mathml "mrow" [Some inferred_row; Some three_mn]
                ∅ None eq_refl) as (r & Hr & Hk & Hc); [discriminate|].
    exists r. split; [exact Hr|]. split; [exact Hk|]. rewrite Hc. reflexivity.
Defined.

Lemma routedToProperty_not_generic key :
  routedToProperty key = true → genericKey key = false.
Proof.
  unfold routedToProperty, genericKey. intros H.
  apply negb_false_iff, bool_decide_eq_true_2.
  apply orb_true_iff in H as [H|H]; apply bool_decide_eq_true_1 in H.
  - subst. apply list_elem_of_further, list_elem_of_here.
  - by do 3 apply list_elem_of_further.
Qed.

(** The state of the [mrow] that stands in for an inferred child. *)
Lemma mrowOf_inferred classes child :
  isInferred classes child = true →
  kind (mrowOf classes child) = "mrow" ∧
  childNodes (mrowOf classes child) = childNodes child ∧
  (∀ key, attributes (mrowOf classes child) !! key =
     routed (genericKey key) (getAllProperties child !! key)
            (attributes child !! key)) ∧
  (∀ key, routedToProperty key = true →
     getAllProperties (mrowOf classes child) !! key =
     getAllProperties child !! key) ∧
  ((∀ key, is_Some (getAllProperties child !! key) → routedToProperty key = true) →
     attributes (mrowOf classes child) = attributes child ∧
     getAllProperties (mrowOf classes child) = getAllProperties child).
Proof.
  intros Hinf. unfold mrowOf, create. rewrite Hinf.
  destruct (copyAttributes_Mml child "mrow" (getChildren child) ∅ ∅ None)
    as (a' & p' & -> & Ha & Hp).
  cbn. split; [done|]. split; [done|].
  assert (Ha' : ∀ key, a' !! key =
    routed (genericKey key) (getAllProperties child !! key) (attributes child !! key)).
  { intros key. by rewrite Ha, routedToAttribute_generic. }
  split; [exact Ha'|]. split.
  - intros key Hkey. rewrite Hp, Hkey, lookup_empty.
    by destruct (getAllProperties child !! key).
  - intros Htyped. split; apply map_eq; intros key.
    + rewrite Ha'. destruct (getAllProperties child !! key) as [v|] eqn:E; [|done].
      cbn. by rewrite routedToProperty_not_generic by eauto.
    + rewrite Hp, lookup_empty.
      destruct (getAllProperties child !! key) as [v|] eqn:E; [|done].
      cbn. by rewrite Htyped by eauto.
Qed.

(** C5 (the claim as stated fails).  For a kind of fixed arity, a
    supplied child that is not inferred is not attached when an entry
    before it holds no value. *)
Lemma createNode_fixed_drops_after_empty :
  variadic (arity mathml "mfrac") = false ∧
  isInferred mathml x_mi = false ∧
  createNode mathml "mfrac" [None; Some x_mi] ∅ None =
    Some (Mml "mfrac" [] ∅ ∅ None).
Proof. repeat split; vm_compute; reflexivity. Qed.

(** C5 (as amended).  For a kind of fixed arity, [createNode] attaches
    one child for each supplied child before the first entry that holds
    no value, in the same positions (followed by the trailing text leaf
    when one is supplied).  Such a child that is not inferred is
    attached itself.  An inferred one is replaced by a node of kind
    [mrow] with the children of the inferred node; the typed properties
    of the inferred node (named [movablelimits] or in the allow-list)
    are found with equal value on the [mrow], and so are its
    attributes, with those properties of the inferred node that the
    classifier sends to the attribute map laid over them; where the
    inferred node carries typed properties only, both maps of the
    [mrow] are equal to those of the inferred node. *)
Theorem createNode_fixed_rewraps classes k children def text :
  variadic (arity classes k) = false →
  ∃ r kids,
    createNode classes k children def text = Some r ∧
    kind r = k ∧
    childNodes r = (Some <$> kids) ++ trailing text ∧
    Forall2 (λ child kid,
      if isInferred classes child then
        kind kid = "mrow" ∧
        childNodes kid = childNodes child ∧
        (∀ key, attributes kid !! key =
           routed (genericKey key) (getAllProperties child !! key)
                  (attributes child !! key)) ∧
        (∀ key, routedToProperty key = true →
           getAllProperties kid !! key = getAllProperties child !! key) ∧
        ((∀ key, is_Some (getAllProperties child !! key) →
                 routedToProperty key = true) →
           attributes kid = attributes child ∧
           getAllProperties kid = getAllProperties child)
      else kid = child) (leading children) kids.
Proof.
  intros Hk. rewrite createNode_fixed by done.
  exists (setProperties
            (Mml k (cleanChildren classes children ++ trailing text) ∅ ∅ None)
            def), (mrowOf classes <$> leading children).
  split; [done|].
  rewrite setProperties_kind, setProperties_childNodes. cbn.
  split; [done|]. split.
  - by rewrite cleanChildren_leading, <- list_fmap_compose.
  - apply Forall2_fmap_r, Forall_Forall2_diag, Forall_forall. intros child _.
    unfold compose.
    destruct (isInferred classes child) eqn:Hinf.
    + by apply mrowOf_inferred.
    + unfold mrowOf. by rewrite Hinf.
Qed.

(** The amended C5 on a fraction given a token and an inferred row. *)
Lemma createNode_fixed_rewraps_witness :
  ∃ r mrow,
    createNode mathml "mfrac" [Some three_mn; Some inferred_row] ∅ None = Some r ∧
    childNodes r = [Some three_mn; Some mrow] ∧
    kind mrow = "mrow" ∧
    childNodes mrow = [Some x_mi; Some two_mn] ∧
    attributes mrow = {["mathcolor" := PString "red"]} ∧
    getAllProperties mrow = {["texprimestyle" := PBoolean true]}.
Proof.
  destruct (createNode_fixed_rewraps mathml "mfrac"
              [Some three_mn; Some inferred_row] ∅ None eq_refl)
    as (r & kids & Hr & _ & Hc & Hkids).
  cbn [leading] in Hkids.
  apply Forall2_cons_inv_l in Hkids as (k1 & kids1 & H1 & Hkids & ->).
  apply Forall2_cons_inv_l in Hkids as (k2 & kids2 & H2 & Hkids & ->).
  apply Forall2_nil_inv_l in Hkids as ->.
  cbn beta in H1, H2.
  change (isInferred mathml three_mn) with false in H1.
  change (isInferred mathml inferred_row) with true in H2.
  cbn iota in H1, H2. subst k1.
  destruct H2 as (Hk & Hcs & _ & _ & Hall).
  destruct Hall as [Ha Hp].
  { intros key [v Hv]. vm_compute in Hv.
    destruct (decide (key = "texprimestyle")) as [->|Hne]; [reflexivity|].
    exfalso. change (({["texprimestyle" := PBoolean true]} : gmap string Property) !! key = Some v) in Hv.
    by rewrite lookup_singleton_ne in Hv. }
  exists r, k2. split; [exact Hr|]. split; [by rewrite Hc|].
  split; [exact Hk|]. split; [by rewrite Hcs|]. split; [by rewrite Ha|by rewrite Hp].
Defined.

(** C8 (the claim as stated fails).  [mfrac] has arity 2, and
    [createNode] gives it three children when three are supplied. *)
Lemma createNode_exceeds_arity :
  arity mathml "mfrac" = Finite 2 ∧
  ∃ r, createNode mathml "mfrac" [Some x_mi; Some two_mn; Some three_mn] ∅ None = Some r ∧
       length (childNodes r) = 3.
Proof. split; [reflexivity|]. eexists. split; reflexivity. Qed.

(** C8 (as amended).  For a kind of fixed arity, the node returned by
    [createNode] has as many children as there are supplied entries
    before the first one that holds no value, plus one when a trailing
    text leaf is supplied.  That is at most the number of supplied
    entries plus one, and it is at most the arity [n] whenever the
    supplied entries and the text leaf together number at most [n]. *)
Theorem createNode_fixed_length classes k children def text :
  variadic (arity classes k) = false →
  ∃ r, createNode classes k children def text = Some r ∧
    length (childNodes r) = length (leading children) + length (trailing text) ∧
    length (childNodes r) ≤ length children + 1 ∧
    ∀ n, arity classes k = Finite n →
         (Z.of_nat (length children + length (trailing text)) ≤ n)%Z →
         (Z.of_nat (length (childNodes r)) ≤ n)%Z.
Proof.
  intros Hk. rewrite createNode_fixed by done. eexists. split; [reflexivity|].
  rewrite setProperties_childNodes. cbn.
  rewrite length_app, cleanChildren_leading, length_fmap.
  pose proof (leading_length children).
  assert (length (trailing text) ≤ 1) by (destruct text; cbn; lia).
  split; [done|]. split; [lia|]. intros n _ Hn. lia.
Qed.

(** The amended C8 on a fraction given two children, the second after
    a hole, and a text leaf. *)
Lemma createNode_fixed_length_witness :
  ∃ r, createNode mathml "mfrac" [Some x_mi; None; Some two_mn] ∅
         (Some (TextNode "t")) = Some r ∧
       length (childNodes r) = 2.
Proof.
  destruct (createNode_fixed_length mathml "mfrac" [Some x_mi; None; Some two_mn] ∅
              (Some (TextNode "t")) eq_refl) as (r & Hr & Hlen & _).
  exists r. split; [exact Hr|]. rewrite Hlen. reflexivity.
Defined.

(** C10.  For a kind of fixed arity, a children sequence with an entry
    that holds no value gives the node that the entries before it give
    alone: whatever is supplied after that entry is left out. *)
Theorem createNode_fixed_stops_at_empty classes k before after def text :
  variadic (arity classes k) = false →
  createNode classes k (before ++ None :: after) def text =
    createNode classes k before def text ∧
  ∃ r, createNode classes k (before ++ None :: after) def text = Some r ∧
       childNodes r =
         ((λ c, Some (mrowOf classes c)) <$> leading before) ++ trailing text.
Proof.
  intros Hk. rewrite !createNode_fixed by done.
  rewrite !cleanChildren_leading, leading_app_None. split; [done|].
  eexists. split; [reflexivity|]. by rewrite setProperties_childNodes.
Qed.

(** C10 on a fraction given a token, a hole and another token. *)
Lemma createNode_fixed_stops_at_empty_witness :
  ∃ r, createNode mathml "mfrac" [Some x_mi; None; Some two_mn] ∅ None = Some r ∧
       childNodes r = [Some x_mi].
Proof.
  destruct (createNode_fixed_stops_at_empty mathml "mfrac" [Some x_mi] [Some two_mn]
              ∅ None eq_refl) as (_ & r & Hr & Hc).
  exists r. split; [exact Hr|]. rewrite Hc. reflexivity.
Defined.

(** ** The property classifier: statements of the specification *)

(** C6.  When the bag holds [movablelimits] with value [v],
    [setProperties] leaves kind, children and state otherwise as the
    classifier puts them, stores [v] as the typed property
    [movablelimits], and stores [v] as the attribute [movablelimits]
    if the node is of kind [mo] or [mstyle]; on a node of any other
    kind the attribute [movablelimits] is what it was before. *)
Theorem setProperties_movablelimits k cs a p t (bag : gmap string Property) v :
  bag !! "movablelimits" = Some v →
  ∃ a' p' t',
    setProperties (Mml k cs a p t) bag = Mml k cs a' p' t' ∧
    p' !! "movablelimits" = Some v ∧
    a' !! "movablelimits" =
      (if bool_decide (k = "mo") || bool_decide (k = "mstyle")
       then Some v else a !! "movablelimits").
Proof.
  intros Hbag.
  destruct (setProperties_Mml k cs a p t bag) as (a' & p' & -> & Ha & Hp).
  eexists _, _, _. split; [reflexivity|].
  rewrite Ha, Hp, Hbag. split; [done|]. cbn.
  unfold routedToAttribute. cbn.
  by destruct (bool_decide (k = "mo") || bool_decide (k = "mstyle")).
Qed.

(** C6 on fresh nodes of kind [mo] and [mfrac]. *)
Lemma setProperties_movablelimits_witness :
  (∃ a' p' t',
     setProperties (create "mo" ∅ []) {["movablelimits" := PBoolean true]} =
       Mml "mo" [] a' p' t' ∧
     p' !! "movablelimits" = Some (PBoolean true) ∧
     a' !! "movablelimits" = Some (PBoolean true)) ∧
  (∃ a' p' t',
     setProperties (create "mfrac" ∅ []) {["movablelimits" := PBoolean true]} =
       Mml "mfrac" [] a' p' t' ∧
     p' !! "movablelimits" = Some (PBoolean true) ∧
     a' !! "movablelimits" = None).
Proof.
  assert (Hbag : ({["movablelimits" := PBoolean true]} : gmap string Property)
                   !! "movablelimits" = Some (PBoolean true))
    by (vm_compute; reflexivity).
  split.
  - destruct (setProperties_movablelimits "mo" [] ∅ ∅ None _ _ Hbag)
      as (a' & p' & t' & H & Hp & Ha).
    exists a', p', t'. split; [exact H|]. split; [exact Hp|]. exact Ha.
  - destruct (setProperties_movablelimits "mfrac" [] ∅ ∅ None _ _ Hbag)
      as (a' & p' & t' & H & Hp & Ha).
    exists a', p', t'. split; [exact H|]. split; [exact Hp|]. exact Ha.
Defined.

(** ** The operator form resolver: statements of the specification *)

Section ResolverFacts.
Context {OperatorDef : Type}.
Context (OPTABLE : string → gmap string OperatorDef).
Context (getForms : MmlNode → list string).
Context (getText : MmlNode → string).

Lemma propertyAccess_own (table : gmap string OperatorDef) name :
  name ∉ inheritedMembers →
  propertyAccess table name = Entry <$> table !! name.
Proof.
  intros Hname. unfold propertyAccess.
  destruct (table !! name); [done|]. by rewrite decide_False.
Qed.

Lemma propertyAccess_inherited (table : gmap string OperatorDef) name :
  name ∈ inheritedMembers →
  propertyAccess table name =
    Some (match table !! name with
          | Some def => Entry def
          | None => Inherited name
          end).
Proof.
  intros Hname. unfold propertyAccess.
  destruct (table !! name); [done|]. by rewrite decide_True.
Qed.

(** The loop returns what the access gives for the first form for
    which it gives a value. *)
Lemma getForm_loop_first mo forms :
  (∃ before form after symbol,
     forms = before ++ form :: after ∧
     Forall (λ f, propertyAccess (OPTABLE f) (getText mo) = None) before ∧
     propertyAccess (OPTABLE form) (getText mo) = Some symbol ∧
     getForm_loop OPTABLE getText mo forms = Some symbol) ∨
  (Forall (λ f, propertyAccess (OPTABLE f) (getText mo) = None) forms ∧
   getForm_loop OPTABLE getText mo forms = None).
Proof.
  induction forms as [|form forms IH]; cbn.
  - right. by split.
  - destruct (propertyAccess (OPTABLE form) (getText mo)) as [symbol|] eqn:E.
    + left. exists [], form, forms, symbol. by repeat split.
    + destruct IH as [(before & f & after & symbol & -> & Hb & Hf & Hr)|[Hall Hr]].
      * left. exists (form :: before), f, after, symbol.
        repeat split; [by constructor|done..].
      * right. split; [by constructor|done].
Qed.

(** What [getForm] does on every node.  On a node that is not of kind
    [mo] it returns no match, whatever the dictionary holds.  On a node
    of kind [mo] whose text is not the name of an inherited member it
    returns the entry of the first form that has one for the text, and
    no match when no form has one.  On a node of kind [mo] whose text
    is the name of an inherited member the access on the first form
    gives a value in any case, and that value is returned. *)
Lemma getForm_first_match node :
  (kind node ≠ "mo" →
     ∀ OPTABLE' : string → gmap string OperatorDef,
       getForm OPTABLE' getForms getText node = None) ∧
  (kind node = "mo" → getText node ∉ inheritedMembers →
     (∃ before form after def,
        getForms node = before ++ form :: after ∧
        Forall (λ f, OPTABLE f !! getText node = None) before ∧
        OPTABLE form !! getText node = Some def ∧
        getForm OPTABLE getForms getText node = Some (Entry def)) ∨
     (Forall (λ f, OPTABLE f !! getText node = None) (getForms node) ∧
      getForm OPTABLE getForms getText node = None)) ∧
  (kind node = "mo" → getText node ∈ inheritedMembers →
     getForm OPTABLE getForms getText node =
       match getForms node with
       | [] => None
       | form :: _ =>
           Some (match OPTABLE form !! getText node with
                 | Some def => Entry def
                 | None => Inherited (getText node)
                 end)
       end).
Proof.
  unfold getForm, isType, isKind. split; [|split].
  - intros Hk OPTABLE'. by rewrite bool_decide_eq_false_2.
  - intros Hk Hname. rewrite bool_decide_eq_true_2 by done. cbn.
    assert (Hnone : ∀ l, Forall (λ f, propertyAccess (OPTABLE f) (getText node) = None) l →
                         Forall (λ f, OPTABLE f !! getText node = None) l).
    { intros l Hl. eapply Forall_impl; [exact Hl|]. cbn. intros f.
      rewrite propertyAccess_own by done.
      by destruct (OPTABLE f !! getText node). }
    destruct (getForm_loop_first node (getForms node))
      as [(before & form & after & symbol & Hf & Hb & Hs & Hr)|[Hall Hr]].
    + left. rewrite propertyAccess_own in Hs by done.
      destruct (OPTABLE form !! getText node) as [def|] eqn:E; [|done].
      injection Hs as <-. exists before, form, after, def. auto.
    + right. auto.
  - intros Hk Hname. rewrite bool_decide_eq_true_2 by done. cbn.
    destruct (getForms node) as [|form forms]; [done|]. cbn.
    by rewrite propertyAccess_inherited.
Qed.

End ResolverFacts.

(** C7 (the code departs from the claim).  [constructor_mo] is a node of
    kind [mo]; no form of its form list has an entry for its text in
    the dictionary; and [getForm] returns not "no match" but the
    member of that name that the table of the first form inherits. *)
Theorem getForm_returns_inherited_member :
  kind constructor_mo = "mo" ∧
  example_getText constructor_mo = "constructor" ∧
  Forall (λ form, example_OPTABLE form !! "constructor" = None)
         (example_getForms constructor_mo) ∧
  getForm example_OPTABLE example_getForms example_getText constructor_mo =
    Some (Inherited "constructor").
Proof.
  split; [reflexivity|]. split; [reflexivity|]. split.
  - repeat constructor; vm_compute; reflexivity.
  - vm_compute. reflexivity.
Qed.

(** * Further properties of the helpers *)

(** ** The property classifier *)

Lemma Mml_state_eq k cs (a1 a2 p1 p2 : gmap string Property) t1 t2 :
  (∀ key, a1 !! key = a2 !! key) → (∀ key, p1 !! key = p2 !! key) → t1 = t2 →
  Mml k cs a1 p1 t1 = Mml k cs a2 p2 t2.
Proof. intros Ha Hp ->. f_equal; by apply map_eq. Qed.

Lemma routed_false new old : routed false new old = old.
Proof. by destruct new. Qed.

Lemma routed_union b (new2 new1 old : option Property) :
  routed b new2 (routed b new1 old) =
  routed b (union_with (λ x _, Some x) new2 new1) old.
Proof. destruct new2, new1, b; done. Qed.

(** X1.  [setProperties] is idempotent: classifying the same bag a
    second time leaves the node as the first time left it. *)
Theorem setProperties_idempotent n (bag : gmap string Property) :
  setProperties (setProperties n bag) bag = setProperties n bag.
Proof.
  destruct n as [k cs a p t|s]; [|by rewrite !setProperties_TextNode].
  destruct (setProperties_Mml k cs a p t bag) as (a1 & p1 & -> & Ha1 & Hp1).
  destruct (setProperties_Mml k cs a1 p1 (routed true (bag !! "texClass") t) bag)
    as (a2 & p2 & -> & Ha2 & Hp2).
  apply Mml_state_eq.
  - intros key. rewrite Ha2, Ha1, routed_union. by destruct (bag !! key).
  - intros key. rewrite Hp2, Hp1, routed_union. by destruct (bag !! key).
  - by destruct (bag !! "texClass").
Qed.

(** X2.  Classifying one bag after another is classifying their union,
    in which the later bag wins on the keys they share. *)
Theorem setProperties_union n (bag1 bag2 : gmap string Property) :
  setProperties (setProperties n bag1) bag2 = setProperties n (bag2 ∪ bag1).
Proof.
  destruct n as [k cs a p t|s]; [|by rewrite !setProperties_TextNode].
  destruct (setProperties_Mml k cs a p t bag1) as (a1 & p1 & -> & Ha1 & Hp1).
  destruct (setProperties_Mml k cs a1 p1 (routed true (bag1 !! "texClass") t) bag2)
    as (a2 & p2 & -> & Ha2 & Hp2).
  destruct (setProperties_Mml k cs a p t (bag2 ∪ bag1)) as (a3 & p3 & -> & Ha3 & Hp3).
  apply Mml_state_eq.
  - intros key. by rewrite Ha2, Ha1, Ha3, routed_union, lookup_union.
  - intros key. by rewrite Hp2, Hp1, Hp3, routed_union, lookup_union.
  - by rewrite routed_union, lookup_union.
Qed.

(** X3.  No key of the bag but [inferred] is lost: after
    [setProperties] on a node, the value of [texClass] is read back by
    [getTexClass], the value of [movablelimits] and of a key of the
    allow-list by [getProperty], and the value of any other key by
    [getAttribute]. *)
Theorem setProperties_retrievable k cs a p t (bag : gmap string Property) key v :
  bag !! key = Some v →
  key ≠ "inferred" →
  let r := setProperties (Mml k cs a p t) bag in
  (key = "texClass" ∧ getTexClass r = Some v) ∨
  (routedToProperty key = true ∧ getProperty r key = Some v) ∨
  (genericKey key = true ∧ getAttribute r key = Some v).
Proof.
  intros Hkey Hinf r. subst r.
  destruct (setProperties_Mml k cs a p t bag) as (a' & p' & -> & Ha & Hp).
  unfold getTexClass, getProperty, getAttribute. cbn.
  destruct (decide (key = "texClass")) as [->|Htc].
  { left. by rewrite Hkey. }
  right. destruct (routedToProperty key) eqn:Hr.
  { left. by rewrite Hp, Hkey, Hr. }
  right. rewrite Ha, Hkey.
  assert (Hg : genericKey key = true).
  { unfold routedToProperty in Hr. apply orb_false_iff in Hr as [H1 H2].
    apply bool_decide_eq_false_1 in H1, H2.
    unfold genericKey. apply negb_true_iff, bool_decide_eq_false_2.
    rewrite !elem_of_cons. intuition congruence. }
  assert (Ha' : routedToAttribute k key = true).
  { unfold routedToAttribute. unfold routedToProperty in Hr.
    apply orb_false_iff in Hr as [H1 H2].
    apply bool_decide_eq_false_1 in H1, H2.
    rewrite decide_False by done.
    rewrite !bool_decide_eq_true_2 by done.
    by rewrite bool_decide_eq_false_2. }
  by rewrite Ha'.
Qed.

(** X3 on a bag of three keys. *)
Lemma setProperties_retrievable_witness :
  let bag : gmap string Property :=
    {["texClass" := PNumber 1; "autoOP" := PBoolean true; "foo" := PString "bar"]} in
  let r := setProperties (create "mi" ∅ []) bag in
  getTexClass r = Some (PNumber 1) ∧
  getProperty r "autoOP" = Some (PBoolean true) ∧
  getAttribute r "foo" = Some (PString "bar").
Proof.
  intros bag r.
  assert (H1 : bag !! "texClass" = Some (PNumber 1)) by (vm_compute; reflexivity).
  assert (H2 : bag !! "autoOP" = Some (PBoolean true)) by (vm_compute; reflexivity).
  assert (H3 : bag !! "foo" = Some (PString "bar")) by (vm_compute; reflexivity).
  split; [|split].
  - destruct (setProperties_retrievable "mi" [] ∅ ∅ None bag _ _ H1) as [[_ H]|[[H _]|[H _]]];
      [discriminate|exact H|discriminate H|discriminate H].
  - destruct (setProperties_retrievable "mi" [] ∅ ∅ None bag _ _ H2) as [[H _]|[[_ H]|[H _]]];
      [discriminate|discriminate H|exact H|discriminate H].
  - destruct (setProperties_retrievable "mi" [] ∅ ∅ None bag _ _ H3) as [[H _]|[[H _]|[_ H]]];
      [discriminate|discriminate H|discriminate H|exact H].
Defined.

(** X4.  The routes do not cross.  The keys [inferred] and [texClass]
    are stored in neither map; a key stored as a typed property, other
    than [movablelimits], leaves the attribute of that name as it was;
    a key stored as an attribute leaves the property of that name as
    it was. *)
Theorem setProperties_routes_apart k cs a p t (bag : gmap string Property) :
  let n := Mml k cs a p t in
  let r := setProperties n bag in
  (∀ key, key = "inferred" ∨ key = "texClass" →
     getAttribute r key = getAttribute n key ∧
     getProperty r key = getProperty n key) ∧
  (∀ key, routedToProperty key = true → key ≠ "movablelimits" →
     getAttribute r key = getAttribute n key) ∧
  (∀ key, genericKey key = true → getProperty r key = getProperty n key).
Proof.
  intros n r. subst n r.
  destruct (setProperties_Mml k cs a p t bag) as (a' & p' & -> & Ha & Hp).
  unfold getProperty, getAttribute. cbn. split; [|split].
  - intros key [-> | ->]; rewrite Ha, Hp;
      (split; [by destruct (bag !! _)|by destruct (bag !! _)]).
  - intros key Hr Hml. rewrite Ha.
    apply routedToProperty_not_generic in Hr.
    assert (routedToAttribute k key = false) as ->; [|apply routed_false].
    unfold routedToAttribute. rewrite decide_False by done.
    unfold genericKey in Hr. apply negb_false_iff, bool_decide_eq_true_1 in Hr.
    rewrite !elem_of_cons in Hr.
    destruct Hr as [->|[->|[->|Hr]]]; [done..|].
    rewrite (bool_decide_eq_true_2 (key ∈ attrs)) by done. cbn.
    by rewrite andb_false_r.
  - intros key Hg. rewrite Hp.
    assert (routedToProperty key = false) as ->; [|apply routed_false].
    destruct (routedToProperty key) eqn:E; [|done].
    apply routedToProperty_not_generic in E. congruence.
Qed.

(** ** The node assembler *)

Lemma createNode_shape classes k children def text r :
  createNode classes k children def text = Some r →
  ∃ cs, r = setProperties (Mml k cs ∅ ∅ None) def.
Proof.
  unfold createNode. intros H.
  destruct (variadic (arity classes k)).
  - destruct (bool_decide (length children = 1)).
    + destruct (slot children 0) as [c0|]; [|discriminate]. cbn in H.
      destruct (isInferred classes c0), text; injection H as <-; eauto.
    + destruct text; injection H as <-; eauto.
  - destruct text; injection H as <-; eauto.
Qed.

(** X5.  A node made by [createNode] carries the bag and nothing else:
    its attributes are the entries of the bag that the classifier
    sends to the attribute map, its typed properties the entries named
    [movablelimits] or in the allow-list, and its texClass the entry
    [texClass], if there is one. *)
Theorem createNode_state classes k children (def : gmap string Property) text r :
  createNode classes k children def text = Some r →
  kind r = k ∧
  (∀ key, getAttribute r key = if routedToAttribute k key then def !! key else None) ∧
  (∀ key, getProperty r key = if routedToProperty key then def !! key else None) ∧
  getTexClass r = def !! "texClass".
Proof.
  intros H. apply createNode_shape in H as (cs & ->).
  destruct (setProperties_Mml k cs ∅ ∅ None def) as (a' & p' & -> & Ha & Hp).
  unfold getAttribute, getProperty, getTexClass. cbn.
  split; [done|]. split; [|split].
  - intros key. rewrite Ha, lookup_empty.
    by destruct (def !! key), (routedToAttribute k key).
  - intros key. rewrite Hp, lookup_empty.
    by destruct (def !! key), (routedToProperty key).
  - by destruct (def !! "texClass").
Qed.

(** X5 on an operator made with a bag of four keys. *)
Lemma createNode_state_witness :
  ∃ r, createNode mathml "mo" [] {["movablelimits" := PBoolean true;
                                   "inferred" := PBoolean true;
                                   "texClass" := PNumber 1;
                                   "stretchy" := PBoolean false]} None = Some r ∧
       getAttribute r "movablelimits" = Some (PBoolean true) ∧
       getAttribute r "stretchy" = Some (PBoolean false) ∧
       getAttribute r "inferred" = None ∧
       getProperty r "movablelimits" = Some (PBoolean true) ∧
       getProperty r "inferred" = None ∧
       getTexClass r = Some (PNumber 1).
Proof.
  eexists. split; [vm_compute; reflexivity|].
  match goal with
  | |- context [getTexClass ?r] =>
      destruct (createNode_state mathml "mo" [] {["movablelimits" := PBoolean true;
                                   "inferred" := PBoolean true;
                                   "texClass" := PNumber 1;
                                   "stretchy" := PBoolean false]} None r)
        as (_ & Ha & Hp & Ht); [vm_compute; reflexivity|]
  end.
  rewrite !Ha, !Hp, Ht. vm_compute. repeat split; reflexivity.
Defined.

(** X6.  Under a fixed arity no inferred node and no empty slot
    survives among the children [createNode] attaches, as long as
    [mrow] is no inferred kind and the trailing text is no inferred
    node. *)
Theorem createNode_fixed_no_inferred classes k children def text :
  variadic (arity classes k) = false →
  inferred classes "mrow" = false →
  (∀ t, text = Some t → isInferred classes t = false) →
  ∃ r, createNode classes k children def text = Some r ∧
       Forall (λ c, ∃ child, c = Some child ∧ isInferred classes child = false)
              (childNodes r).
Proof.
  intros Hk Hmrow Htext. rewrite createNode_fixed by done.
  eexists. split; [reflexivity|].
  rewrite setProperties_childNodes. cbn.
  apply Forall_app. split.
  - rewrite cleanChildren_leading. apply Forall_fmap, Forall_forall.
    intros c _. cbn. eexists. split; [reflexivity|].
    unfold mrowOf. destruct (isInferred classes c) eqn:E; [|done].
    unfold create.
    destruct (copyAttributes_Mml c "mrow" (getChildren c) ∅ ∅ None) as (a' & p' & -> & _).
    done.
  - destruct text as [t|]; cbn; [|constructor].
    constructor; [|constructor]. eauto.
Qed.

(** X6 on a fraction given an inferred row and a text leaf. *)
Lemma createNode_fixed_no_inferred_witness :
  ∃ r, createNode mathml "mfrac" [Some inferred_row; Some x_mi] ∅
         (Some (TextNode "t")) = Some r ∧
       Forall (λ c, ∃ child, c = Some child ∧ isInferred mathml child = false)
              (childNodes r).
Proof.
  apply (createNode_fixed_no_inferred mathml "mfrac"); [reflexivity..|].
  intros t [= <-]. reflexivity.
Defined.

(** ** Child slots *)

Lemma slot_assignSlot_eq cs i c : slot (assignSlot cs i c) i = c.
Proof.
  unfold assignSlot, slot. case_decide as Hi.
  - by rewrite list_lookup_insert_eq.
  - rewrite lookup_app_r by lia. rewrite lookup_app_r by (rewrite length_replicate; lia).
    rewrite length_replicate. by replace (i - length cs - (i - length cs)) with 0 by lia.
Qed.

Lemma slot_assignSlot_ne cs i j c : i ≠ j → slot (assignSlot cs i c) j = slot cs j.
Proof.
  intros Hij. unfold assignSlot, slot. case_decide as Hi.
  - by rewrite list_lookup_insert_ne.
  - destruct (decide (j < length cs)) as [Hj|Hj].
    + by rewrite lookup_app_l.
    + rewrite (lookup_ge_None_2 cs j) by lia.
      rewrite lookup_app_r by lia.
      destruct (decide (j < i)) as [Hji|Hji].
      * rewrite lookup_app_l by (rewrite length_replicate; lia).
        by rewrite lookup_replicate_2 by lia.
      * rewrite lookup_ge_None_2; [done|].
        rewrite length_app, length_replicate. cbn. lia.
Qed.

Lemma length_assignSlot cs i c : length (assignSlot cs i c) = length cs `max` S i.
Proof.
  unfold assignSlot. case_decide.
  - rewrite length_insert. lia.
  - rewrite !length_app, length_replicate. cbn. lia.
Qed.

(** X7.  [setData] and [getChildAt] as array assignment and read: the
    assigned slot reads back what was assigned (also no value), every
    other slot reads as before, an index past the end extends the
    children up to that index, and kind, attributes, properties and
    texClass stay. *)
Theorem setData_getChildAt k cs a p t position child :
  let n := Mml k cs a p t in
  let r := setData n position child in
  getChildAt r position = child ∧
  (∀ j, j ≠ position → getChildAt r j = getChildAt n j) ∧
  length (childNodes r) = length cs `max` S position ∧
  ∃ cs', r = Mml k cs' a p t.
Proof.
  intros n r. subst n r. unfold getChildAt, setData. cbn.
  split; [apply slot_assignSlot_eq|].
  split; [by intros j Hj; apply slot_assignSlot_ne|].
  split; [apply length_assignSlot|eauto].
Qed.

Lemma childNodes_copyChildren_loop old k cs a p t n :
  n ≤ length old →
  childNodes (foldl (λ newNode i, setData newNode i (slot old i))
                    (Mml k cs a p t) (seq 0 n)) =
    take n old ++ drop n cs ∧
  ∃ cs', foldl (λ newNode i, setData newNode i (slot old i))
               (Mml k cs a p t) (seq 0 n) = Mml k cs' a p t.
Proof.
  induction n as [|n IH]; intros Hn.
  - cbn. by rewrite drop_0; eauto.
  - rewrite seq_S, foldl_app. cbn [foldl plus].
    destruct IH as [IH (cs' & Hcs')]; [lia|].
    rewrite Hcs' in *. cbn in IH. subst cs'. unfold setData. cbn.
    split; [|eauto].
    destruct (lookup_lt_is_Some_2 old n) as [x Hx]; [lia|].
    rewrite (take_S_r _ _ _ Hx). unfold slot. rewrite Hx. cbn.
    assert (Hlen : length (take n old) = n) by (rewrite length_take; lia).
    unfold assignSlot. rewrite length_app, Hlen, length_drop.
    case_decide as Hlt.
    + destruct (drop n cs) as [|y rest] eqn:Hd.
      { apply (f_equal length) in Hd. rewrite length_drop in Hd. cbn in Hd. lia. }
      rewrite <- Hlen at 1. rewrite insert_middle.
      rewrite <- app_assoc. cbn. do 2 f_equal.
      replace (S n) with (n + 1) by lia.
      by rewrite <- (drop_drop cs 1 n), Hd.
    + assert (length cs ≤ n) by lia.
      rewrite !drop_ge by lia. rewrite !app_nil_r.
      by replace (n - (n + (length cs - n))) with 0 by lia.
Qed.

(** X8.  [copyChildren] overwrites, it does not replace: the new node
    gets the children of the old node in its first slots (holes
    included), and keeps its own children in the slots beyond them;
    its kind, attributes, properties and texClass stay. *)
Theorem copyChildren_childNodes oldNode k cs a p t :
  ∃ cs', copyChildren oldNode (Mml k cs a p t) = Mml k cs' a p t ∧
         cs' = childNodes oldNode ++ drop (length (childNodes oldNode)) cs.
Proof.
  unfold copyChildren.
  destruct (childNodes_copyChildren_loop (childNodes oldNode) k cs a p t
              (length (childNodes oldNode))) as [H (cs' & Hcs')]; [done|].
  exists cs'. split; [done|]. rewrite Hcs' in H. cbn in H.
  by rewrite H, firstn_all.
Qed.

Lemma appendChildren_Mml k cs a p t children :
  appendChildren (Mml k cs a p t) children = Mml k (cs ++ (Some <$> children)) a p t.
Proof.
  unfold appendChildren. revert cs.
  induction children as [|c rest IH]; intros cs; cbn.
  - by rewrite app_nil_r.
  - rewrite IH. by rewrite <- app_assoc.
Qed.

(** X9.  [appendChildren] puts the children after those the node has,
    in their order; doing it in two parts is doing it at once, and
    appending one child is [setData] at the index after the last. *)
Theorem appendChildren_childNodes k cs a p t children more child :
  let n := Mml k cs a p t in
  childNodes (appendChildren n children) = cs ++ (Some <$> children) ∧
  appendChildren (appendChildren n children) more = appendChildren n (children ++ more) ∧
  appendChildren n [child] = setData n (length cs) (Some child).
Proof.
  intros n. subst n. rewrite !appendChildren_Mml. split; [done|]. split.
  - by rewrite fmap_app, app_assoc.
  - unfold setData, assignSlot. cbn. rewrite decide_False by lia.
    by rewrite Nat.sub_diag.
Qed.

(** ** Error nodes *)

(** X10.  [createError] does not fail and builds the same tree whatever
    the arities of [mtext] and [merror] are, as long as [mtext] is no
    inferred kind: an [merror] over one [mtext] over the message as a
    text leaf; without a message the [mtext] has no child.  The tree
    carries no attribute, property or texClass, and the repair pass
    leaves it as it is. *)
Theorem createError_tree classes message :
  inferred classes "mtext" = false →
  let error :=
    Mml "merror"
      [Some (Mml "mtext" (trailing (createText message)) ∅ ∅ None)] ∅ ∅ None in
  createError classes message = Some error ∧
  cleanSubSup classes error = Some error.
Proof.
  intros Hmtext error. subst error. split.
  - unfold createError.
    assert (Hm : createNode classes "mtext" [] ∅ (createText message) =
                 Some (Mml "mtext" (trailing (createText message)) ∅ ∅ None)).
    { destruct (variadic (arity classes "mtext")) eqn:Hv.
      - rewrite createNode_variadic_many by done. by rewrite setProperties_empty.
      - rewrite createNode_fixed by done. by rewrite setProperties_empty. }
    rewrite Hm. cbn [mbind option_bind].
    destruct (variadic (arity classes "merror")) eqn:Hv.
    + rewrite createNode_variadic_one by done. cbn. rewrite Hmtext.
      by rewrite setProperties_empty.
    + rewrite createNode_fixed by done. cbn. rewrite Hmtext.
      by rewrite setProperties_empty.
  - rewrite cleanSubSup_repaired. f_equal. apply Settled_repaired.
    constructor; [done|]. intros [|[|i]] c; cbn; [|done..].
    intros [= <-]. constructor; [done|]. intros i c Hc.
    destruct message; cbn in Hc; [|by destruct i].
    destruct i as [|[|i]]; cbn in Hc; [|done..].
    injection Hc as <-. constructor.
Qed.

(** X10 on a message and on no message. *)
Lemma createError_tree_witness :
  createError mathml (Some "Missing close brace") =
    Some (Mml "merror"
            [Some (Mml "mtext" [Some (TextNode "Missing close brace")] ∅ ∅ None)]
            ∅ ∅ None) ∧
  createError mathml None =
    Some (Mml "merror" [Some (Mml "mtext" [] ∅ ∅ None)] ∅ ∅ None).
Proof.
  split.
  - exact (proj1 (createError_tree mathml (Some "Missing close brace") eq_refl)).
  - exact (proj1 (createError_tree mathml None eq_refl)).
Defined.

(** ** Copying state *)

(** X11.  [copyAttributes] replaces the attributes of the new node and
    merges into its properties: whatever attributes the new node had
    do not show in the result, while a property of the new node stays
    unless the old node has a typed property of the same name. *)
Theorem copyAttributes_replaces_and_merges oldNode k cs a a0 p t :
  copyAttributes oldNode (Mml k cs a p t) = copyAttributes oldNode (Mml k cs a0 p t) ∧
  ∀ key, getAllProperties oldNode !! key = None ∨ routedToProperty key = false →
         getProperty (copyAttributes oldNode (Mml k cs a p t)) key = p !! key.
Proof.
  split; [done|]. intros key Hkey.
  destruct (copyAttributes_Mml oldNode k cs a p t) as (a' & p' & -> & _ & Hp).
  unfold getProperty. cbn. rewrite Hp.
  destruct Hkey as [-> | ->]; [done|]. apply routed_false.
Qed.

(** X12.  [copyAttributes] from the same old node is idempotent. *)
Theorem copyAttributes_idempotent oldNode newNode :
  copyAttributes oldNode (copyAttributes oldNode newNode) =
  copyAttributes oldNode newNode.
Proof.
  destruct newNode as [k cs a p t|s].
  - destruct (copyAttributes_Mml oldNode k cs a p t) as (a1 & p1 & -> & Ha1 & Hp1).
    destruct (copyAttributes_Mml oldNode k cs a1 p1
                (routed true (getAllProperties oldNode !! "texClass") t))
      as (a2 & p2 & -> & Ha2 & Hp2).
    apply Mml_state_eq.
    + intros key. by rewrite Ha2, Ha1.
    + intros key. rewrite Hp2, Hp1, routed_union.
      by destruct (getAllProperties oldNode !! key).
    + by destruct (getAllProperties oldNode !! "texClass").
  - unfold copyAttributes. cbn [assignAttributes].
    rewrite setProperties_TextNode. cbn [assignAttributes].
    by rewrite setProperties_TextNode.
Qed.

(** ** Removing properties *)

Lemma setProperties_singleton n name (value : Property) :
  setProperties n {[name := value]} = setProperties_step name value n.
Proof. unfold setProperties. by rewrite map_fold_singleton. Qed.

(** X13.  Setting one typed property and removing it again gives the
    node back when it had no property of that name, except for the
    mirror of [movablelimits]: on a node of kind [mo] or [mstyle] the
    attribute [movablelimits] stays behind. *)
Theorem removeProperties_setProperties k cs a p t name value :
  routedToProperty name = true →
  p !! name = None →
  let n := Mml k cs a p t in
  let r := removeProperties (setProperties n {[name := value]}) [name] in
  (routedToAttribute k name = false → r = n) ∧
  (routedToAttribute k name = true →
     getProperty r name = None ∧ getAttribute r name = Some value).
Proof.
  intros Hr Hp n r. subst n r.
  rewrite setProperties_singleton, setProperties_step_Mml, Hr.
  assert (Htc : name ≠ "texClass") by (by intros ->).
  rewrite decide_False by done.
  unfold removeProperties, removeProperty, getProperty, getAttribute. cbn.
  rewrite delete_insert_id by done.
  split; intros ->; [done|].
  split; [done|apply lookup_insert_eq].
Qed.

(** X13 on [texprimestyle], and on [movablelimits] set on an operator. *)
Lemma removeProperties_setProperties_witness :
  removeProperties (setProperties x_mi {["texprimestyle" := PBoolean true]})
                   ["texprimestyle"] = x_mi ∧
  getAttribute
    (removeProperties (setProperties plus_mo {["movablelimits" := PBoolean true]})
                      ["movablelimits"]) "movablelimits" = Some (PBoolean true).
Proof.
  split.
  - apply (removeProperties_setProperties "mi" [Some (TextNode "x")] ∅ ∅ None
             "texprimestyle" (PBoolean true)); reflexivity.
  - apply (removeProperties_setProperties "mo" [Some (TextNode "+")] ∅ ∅ None
             "movablelimits" (PBoolean true)); reflexivity.
Defined.

(** ** The repair pass *)

Section RepairMore.
Context (classes : NodeClasses).

Lemma wellScripted_Settled n : wellScripted classes n = true → Settled classes n.
Proof.
  induction n as [s|k cs a p t IH] using MmlNode_rect'; [constructor|].
  cbn [wellScripted]. intros [Hn Hcs]%andb_true_iff.
  constructor; [by apply negb_true_iff|].
  intros i c Hc. apply (IH i c Hc).
  apply slot_lookup in Hc.
  rewrite forallb_forall in Hcs.
  apply (Hcs (Some c)). apply list_elem_of_In. by eapply list_elem_of_lookup_2.
Qed.

Lemma Settled_node_at r q n :
  Settled classes r → node_at r q = Some n → Settled classes n.
Proof.
  revert r. induction q as [|i q IH]; intros r Hr; cbn.
  - by intros [= <-].
  - destruct (slot (childNodes r) i) as [c|] eqn:Hc; [|done]. cbn.
    apply IH. by eapply Settled_children.
Qed.

Lemma length_attached k x y : length (attached classes k [x; y]) ≤ 2.
Proof.
  unfold attached. destruct (variadic (arity classes k)); [done|].
  rewrite cleanChildren_leading, length_fmap.
  apply (leading_length [x; y]).
Qed.

Lemma size_copyAttributes old n : size (copyAttributes old n) = size n.
Proof.
  destruct n as [k cs a p t|s].
  - destruct (copyAttributes_Mml old k cs a p t) as (a' & p' & -> & _). done.
  - unfold copyAttributes. cbn [assignAttributes]. by rewrite setProperties_TextNode.
Qed.

Lemma size_mrowOf c : size (mrowOf classes c) = size c.
Proof.
  unfold mrowOf. destruct (isInferred classes c) eqn:E; [|done].
  rewrite size_copyAttributes. destruct c; [done|]. done.
Qed.

Lemma slot_nil i : slot [] i = None.
Proof. by destruct i. Qed.

Lemma slot_0 c cs : slot (c :: cs) 0 = c.
Proof. done. Qed.

Lemma slot_S c cs i : slot (c :: cs) (S i) = slot cs i.
Proof. done. Qed.

Lemma size_slot_le cs i :
  from_option size 0 (slot cs i) ≤ sum_list_with (λ c, from_option size 0 c) cs.
Proof.
  revert i. induction cs as [|c cs IH]; intros i.
  - rewrite slot_nil. cbn. lia.
  - cbn [sum_list_with]. destruct i as [|i].
    + rewrite slot_0. lia.
    + rewrite slot_S. specialize (IH i). lia.
Qed.

Lemma size_slots_le cs i j :
  i ≠ j →
  from_option size 0 (slot cs i) + from_option size 0 (slot cs j) ≤
  sum_list_with (λ c, from_option size 0 c) cs.
Proof.
  revert i j. induction cs as [|c cs IH]; intros i j Hij.
  - rewrite !slot_nil. cbn. lia.
  - cbn [sum_list_with]. destruct i as [|i], j as [|j]; [done| | |].
    + rewrite slot_0, slot_S. pose proof (size_slot_le cs j). lia.
    + rewrite slot_0, slot_S. pose proof (size_slot_le cs i). lia.
    + rewrite !slot_S. specialize (IH i j). lia.
Qed.

Lemma size_attached k x y :
  sum_list_with (λ c, from_option size 0 c) (attached classes k [x; y]) ≤
  from_option size 0 x + from_option size 0 y.
Proof.
  unfold attached. destruct (variadic (arity classes k)).
  { cbn [sum_list_with]. lia. }
  rewrite cleanChildren_leading.
  destruct x as [x|]; [|cbn [leading fmap list_fmap sum_list_with from_option]; lia].
  destruct y as [y|]; cbn [leading fmap list_fmap sum_list_with from_option];
    rewrite ?size_mrowOf; lia.
Qed.

Lemma size_fmap_le (f : MmlNode → MmlNode) cs :
  (∀ i c, slot cs i = Some c → size (f c) ≤ size c) →
  sum_list_with (λ c, from_option size 0 c) (fmap (M:=list) (fmap (M:=option) f) cs) ≤
  sum_list_with (λ c, from_option size 0 c) cs.
Proof.
  induction cs as [|c cs IH]; intros H; [done|].
  specialize (IH (λ i x Hx, H (S i) x Hx)).
  cbn [fmap list_fmap sum_list_with].
  destruct c as [c|]; cbn [fmap option_fmap option_map from_option]; [|lia].
  specialize (H 0 c eq_refl). lia.
Qed.

Lemma size_repaired t :
  msubsup_base classes ≠ msubsup_sub classes →
  msubsup_base classes ≠ msubsup_sup classes →
  munderover_base classes ≠ munderover_under classes →
  munderover_base classes ≠ munderover_over classes →
  size (repaired classes t) ≤ size t.
Proof.
  intros H1 H2 H3 H4.
  induction t as [s|k cs a p t IH] using MmlNode_rect'; [done|].
  cbn [repaired].
  set (cs' := fmap (M:=list) (fmap (M:=option) (repaired classes)) cs).
  assert (Hcs' : sum_list_with (λ c, from_option size 0 c) cs' ≤
                 sum_list_with (λ c, from_option size 0 c) cs)
    by (by apply size_fmap_le).
  destruct (needsRewrite classes (Mml k cs' a p t)); [|cbn [size]; lia].
  rewrite rewritten_eq, size_copyAttributes. cbn [childNodes].
  destruct (isKind (Mml k cs' a p t) "msubsup");
    [destruct (slot cs' (msubsup_sub classes)) eqn:E
    |destruct (slot cs' (munderover_under classes)) eqn:E]; cbn [size];
    match goal with
    | |- context [attached classes ?k2 [slot cs' ?i; ?y]] =>
        pose proof (size_attached k2 (slot cs' i) y) as Ha
    end.
  - pose proof (size_slots_le cs' _ _ H1) as Hs. rewrite E in Hs. lia.
  - pose proof (size_slots_le cs' _ _ H2) as Hs. lia.
  - pose proof (size_slots_le cs' _ _ H3) as Hs. rewrite E in Hs. lia.
  - pose proof (size_slots_le cs' _ _ H4) as Hs. lia.
Qed.

End RepairMore.

(** X14.  A tree in which no [msubsup] or [munderover] node misses a
    script slot comes back from the repair pass as it went in. *)
Theorem cleanSubSup_wellScripted classes t :
  wellScripted classes t = true → cleanSubSup classes t = Some t.
Proof.
  intros H. rewrite cleanSubSup_repaired. f_equal.
  by apply Settled_repaired, wellScripted_Settled.
Qed.

(** X14 on a row over a complete [msubsup]. *)
Lemma cleanSubSup_wellScripted_witness :
  let t := Mml "mrow" [Some (Mml "msubsup" [Some x_mi; Some two_mn; Some three_mn]
                                 ∅ ∅ None); Some plus_mo] ∅ ∅ None in
  cleanSubSup mathml t = Some t.
Proof. intros t. apply cleanSubSup_wellScripted. reflexivity. Defined.

(** X15.  In the tree the repair pass returns, every node of kind
    [msubsup] has its subscript and its superscript, and every node of
    kind [munderover] its underscript and its overscript, at whatever
    depth. *)
Theorem cleanSubSup_scripts_complete classes t :
  ∃ r, cleanSubSup classes t = Some r ∧
    ∀ q n, node_at r q = Some n →
      (kind n = "msubsup" →
         is_Some (slot (childNodes n) (msubsup_sub classes)) ∧
         is_Some (slot (childNodes n) (msubsup_sup classes))) ∧
      (kind n = "munderover" →
         is_Some (slot (childNodes n) (munderover_under classes)) ∧
         is_Some (slot (childNodes n) (munderover_over classes))).
Proof.
  exists (repaired classes t). split; [apply cleanSubSup_repaired|].
  intros q n Hq.
  assert (Hn : needsRewrite classes n = false).
  { pose proof (Settled_node_at classes _ _ _ (repaired_Settled classes t) Hq) as Hs.
    by destruct Hs. }
  unfold needsRewrite, isKind in Hn.
  apply orb_false_iff in Hn as [Hs Hu].
  split; intros Hk; rewrite Hk, bool_decide_eq_true_2 in * by done; cbn in *.
  - apply orb_false_iff in Hs as [Ha Hb].
    split; [by destruct (slot _ (msubsup_sub classes))
           |by destruct (slot _ (msubsup_sup classes))].
  - apply orb_false_iff in Hu as [Ha Hb].
    split; [by destruct (slot _ (munderover_under classes))
           |by destruct (slot _ (munderover_over classes))].
Qed.

(** X16.  The node that replaces a rewritten node has at most two
    children, whatever the arity of its kind and however many children
    the old node had. *)
Theorem cleanSubSup_rewritten_length classes n :
  needsRewrite classes n = true →
  ∃ r, cleanSubSup classes n = Some r ∧ length (childNodes r) ≤ 2.
Proof.
  intros Hn. rewrite cleanSubSup_repaired. eexists. split; [reflexivity|].
  destruct n as [k cs a p t|s]; [|done].
  cbn [repaired]. rewrite needsRewrite_repaired_children, Hn.
  destruct (rewritten_cases classes
              (Mml k (fmap (M:=list) (fmap (M:=option) (repaired classes)) cs) a p t))
    as (k2 & x & y & a' & p' & t' & -> & _).
  cbn. apply length_attached.
Qed.

(** X16 on an [msubsup] with four slots, the subscript missing. *)
Lemma cleanSubSup_rewritten_length_witness :
  ∃ r, cleanSubSup mathml
         (Mml "msubsup" [Some x_mi; None; Some two_mn; Some three_mn] ∅ ∅ None) = Some r ∧
       length (childNodes r) ≤ 2.
Proof. apply cleanSubSup_rewritten_length. reflexivity. Defined.

(** X17.  The repair pass adds no node: where the base slot of the
    scripted kinds is not one of their script slots, the tree it
    returns has at most as many nodes as the tree it was given. *)
Theorem cleanSubSup_size classes t :
  msubsup_base classes ≠ msubsup_sub classes →
  msubsup_base classes ≠ msubsup_sup classes →
  munderover_base classes ≠ munderover_under classes →
  munderover_base classes ≠ munderover_over classes →
  ∃ r, cleanSubSup classes t = Some r ∧ size r ≤ size t.
Proof.
  intros H1 H2 H3 H4. exists (repaired classes t).
  split; [apply cleanSubSup_repaired|]. by apply size_repaired.
Qed.

(** X17 on [sup_only_classed] inside a row. *)
Lemma cleanSubSup_size_witness :
  ∃ r, cleanSubSup mathml (Mml "mrow" [Some sup_only_classed] ∅ ∅ None) = Some r ∧
       size r ≤ 6.
Proof.
  destruct (cleanSubSup_size mathml (Mml "mrow" [Some sup_only_classed] ∅ ∅ None))
    as (r & Hr & Hs); [discriminate..|].
  exists r. split; [exact Hr|exact Hs].
Defined.
